(** * The Breakout game of M8/Source/MainCode.cpp: paddle, bricks, circles

    A shallow embedding of the simulation core of [MainCode.cpp] (the
    classes [Paddle], [Brick], [Circle], [processInput] and the main loop
    with its movement and collision detection), the properties of it that
    the specification states, and further properties of the code.

    Numbers.  Every coordinate, size, speed and colour component of the
    program is a C++ [float].  It is modelled as an IEEE-754 binary32 value,
    with the operations of the Standard Library's [SpecFloat] at precision 24
    and maximal exponent 128, rounding to nearest, ties to even: the
    arithmetic of a C++ implementation that evaluates [float] expressions in
    [float] (no excess precision, no contraction).  An [int] operand of a
    mixed expression ([width / 2], [-1 + radius]) is converted to [float]
    first, as the usual arithmetic conversions require.  [hitPoints] is an
    [int]: a [Z] with the 32-bit wrap-around written out.

    Containers.  [std::vector<Circle>] is a list together with the vector's
    capacity: a [push_back] on a full vector reallocates the storage and
    invalidates every iterator and reference into it, which matters for the
    loop of [main] that appends to [world] while it walks it.

    Left out: the creation of the window and the drawing.  What the keys
    answer in a frame and what [rand] returns are given from outside. *)

From Stdlib Require Import ZArith Lia Floats.SpecFloat.
From stdpp Require Import base list.

Local Open Scope Z_scope.

(** ** C++ [float] *)

Module F32.

Definition prec : Z := 24.
Definition emax : Z := 128.

Definition float : Type := spec_float.

Definition add : float -> float -> float := SFadd prec emax.
Definition sub : float -> float -> float := SFsub prec emax.
Definition mul : float -> float -> float := SFmul prec emax.
Definition div : float -> float -> float := SFdiv prec emax.
Definition sqrt : float -> float := SFsqrt prec emax.
Definition neg : float -> float := SFopp.
Definition fabs : float -> float := SFabs.

(** [a < b], [a > b], [a <= b]; false as soon as one side is a NaN. *)
Definition ltb : float -> float -> bool := SFltb.
Definition gtb (a b : float) : bool := SFltb b a.
Definition leb : float -> float -> bool := SFleb.

(** Conversion of an [int] to [float]. *)
Definition of_int (n : Z) : float := binary_normalize prec emax n 0 false.

(** The decimal literal [n/d] written with an [f] suffix ([0.02f] is
    [lit 2 100]): the binary32 value nearest to the quotient.  Both
    integers are small enough to be binary32 values themselves, so the
    correctly rounded division is that value. *)
Definition lit (n d : Z) : float := div (of_int n) (of_int d).

Definition valid (a : float) : bool := valid_binary prec emax a.

End F32.

Declare Scope f32_scope.
Delimit Scope f32_scope with f32.
Bind Scope f32_scope with F32.float.
Infix "+" := F32.add : f32_scope.
Infix "-" := F32.sub : f32_scope.
Infix "*" := F32.mul : f32_scope.
Infix "/" := F32.div : f32_scope.
Notation "- a" := (F32.neg a) : f32_scope.
Infix "<?" := F32.ltb : f32_scope.
Infix ">?" := F32.gtb : f32_scope.
Infix "<=?" := F32.leb : f32_scope.

Notation "'0.0f'" := (S754_zero false) : f32_scope.
Notation "'1.0f'" := (F32.of_int 1) : f32_scope.
Notation "'0.5f'" := (F32.lit 5 10) : f32_scope.
Notation "'0.02f'" := (F32.lit 2 100) : f32_scope.

(** [int]: 32 bits, two's complement. *)
Definition wrap_int (n : Z) : Z := (n + 2 ^ 31) mod 2 ^ 32 - 2 ^ 31.

(** ** Enumerations for brick types and states *)

Inductive BRICKTYPE := REFLECTIVE | DESTRUCTABLE.
Inductive ONOFF := ON | OFF.

#[global] Instance BRICKTYPE_eq_dec : EqDecision BRICKTYPE.
Proof. solve_decision. Defined.
#[global] Instance ONOFF_eq_dec : EqDecision ONOFF.
Proof. solve_decision. Defined.

(** ** Class for the paddle *)

Module Paddle.

Record t := Build {
  x : F32.float; y : F32.float; width : F32.float; height : F32.float;
  red : F32.float; green : F32.float; blue : F32.float
}.

Definition set_x (p : t) (v : F32.float) : t :=
  Build v (y p) (width p) (height p) (red p) (green p) (blue p).

(** [void move(float dx)]: move paddle left or right, keep it within the
    screen bounds. *)
Definition move (p : t) (dx : F32.float) : t :=
  let p := set_x p (x p + dx)%f32 in
  let p := if (x p - width p / F32.of_int 2 <? F32.of_int (-1))%f32
           then set_x p (F32.of_int (-1) + width p / F32.of_int 2)%f32
           else p in
  let p := if (x p + width p / F32.of_int 2 >? F32.of_int 1)%f32
           then set_x p (F32.of_int 1 - width p / F32.of_int 2)%f32
           else p in
  p.

End Paddle.

(** ** Class for bricks *)

Module Brick.

Record t := Build {
  red : F32.float; green : F32.float; blue : F32.float;
  x : F32.float; y : F32.float; width : F32.float; height : F32.float;
  brick_type : BRICKTYPE;
  onoff : ONOFF;
  hitPoints : Z  (* number of hits before destruction *)
}.

(** The constructor: a new brick is [ON]. *)
Definition new (bt : BRICKTYPE) (xx yy ww hh rr gg bb : F32.float) (hp : Z) : t :=
  Build rr gg bb xx yy ww hh bt ON hp.

Definition set_color (b : t) (r g bl : F32.float) : t :=
  Build r g bl (x b) (y b) (width b) (height b) (brick_type b) (onoff b) (hitPoints b).
Definition set_hitPoints (b : t) (hp : Z) : t :=
  Build (red b) (green b) (blue b) (x b) (y b) (width b) (height b)
        (brick_type b) (onoff b) hp.
Definition set_onoff (b : t) (o : ONOFF) : t :=
  Build (red b) (green b) (blue b) (x b) (y b) (width b) (height b)
        (brick_type b) o (hitPoints b).

(** [void updateColor()]: update brick color based on hit points. *)
Definition updateColor (b : t) : t :=
  match brick_type b with
  | DESTRUCTABLE =>
      if hitPoints b =? 2 then set_color b 1.0f 0.5f 0.0f       (* orange *)
      else if hitPoints b =? 1 then set_color b 1.0f 0.0f 0.0f  (* red *)
      else b
  | REFLECTIVE => b
  end.

End Brick.

(** ** Class for circles *)

Module Circle.

Record t := Build {
  red : F32.float; green : F32.float; blue : F32.float;
  radius : F32.float;
  x : F32.float; y : F32.float;
  speedX : F32.float; speedY : F32.float;
  active : bool
}.

(** The constructor: a new circle is active. *)
Definition new (xx yy rad sX sY r g b : F32.float) : t :=
  Build r g b rad xx yy sX sY true.

Definition set_x (c : t) (v : F32.float) : t :=
  Build (red c) (green c) (blue c) (radius c) v (y c) (speedX c) (speedY c) (active c).
Definition set_y (c : t) (v : F32.float) : t :=
  Build (red c) (green c) (blue c) (radius c) (x c) v (speedX c) (speedY c) (active c).
Definition set_speedX (c : t) (v : F32.float) : t :=
  Build (red c) (green c) (blue c) (radius c) (x c) (y c) v (speedY c) (active c).
Definition set_speedY (c : t) (v : F32.float) : t :=
  Build (red c) (green c) (blue c) (radius c) (x c) (y c) (speedX c) v (active c).
Definition set_active (c : t) (a : bool) : t :=
  Build (red c) (green c) (blue c) (radius c) (x c) (y c) (speedX c) (speedY c) a.

(** The box test of [CheckCollision(Brick* )]: the square around the
    circle against the rectangle of the brick. *)
Definition hits_brick (c : t) (brk : Brick.t) : bool :=
  ((x c + radius c >? Brick.x brk - Brick.width brk / F32.of_int 2) &&
   (x c - radius c <? Brick.x brk + Brick.width brk / F32.of_int 2) &&
   (y c + radius c >? Brick.y brk - Brick.height brk / F32.of_int 2) &&
   (y c - radius c <? Brick.y brk + Brick.height brk / F32.of_int 2))%f32.

(** [void CheckCollision(Brick* brk)]: check collision with bricks.  The
    brick is reached through a pointer and changed in place: the function
    returns the circle and the brick. *)
Definition CheckCollision_Brick (c : t) (brk : Brick.t) : t * Brick.t :=
  match Brick.onoff brk with
  | ON =>
      if hits_brick c brk then
        match Brick.brick_type brk with
        | REFLECTIVE =>
            (* simple reflection logic *)
            (set_speedY c (- speedY c)%f32, brk)
        | DESTRUCTABLE =>
            (* decrease hit points and update color *)
            let brk := Brick.set_hitPoints brk (wrap_int (Brick.hitPoints brk - 1)) in
            let brk := Brick.updateColor brk in
            let brk := if Brick.hitPoints brk <=? 0 then Brick.set_onoff brk OFF
                       else brk in
            (* reflect circle *)
            (set_speedY c (- speedY c)%f32, brk)
        end
      else (c, brk)
  | OFF => (c, brk)
  end.

(** The box test of [CheckCollision(Paddle* )]. *)
Definition hits_paddle (c : t) (paddle : Paddle.t) : bool :=
  ((x c + radius c >? Paddle.x paddle - Paddle.width paddle / F32.of_int 2) &&
   (x c - radius c <? Paddle.x paddle + Paddle.width paddle / F32.of_int 2) &&
   (y c - radius c <? Paddle.y paddle + Paddle.height paddle / F32.of_int 2) &&
   (y c + radius c >? Paddle.y paddle - Paddle.height paddle / F32.of_int 2))%f32.

(** [void CheckCollision(Paddle* paddle)]: check collision with paddle. *)
Definition CheckCollision_Paddle (c : t) (paddle : Paddle.t) : t :=
  if hits_paddle c paddle then
    (* reflect circle: ensure circle moves upwards *)
    let c := set_speedY c (F32.fabs (speedY c)) in
    (* adjust speedX based on where it hits the paddle *)
    let hitPos := ((x c - Paddle.x paddle) / (Paddle.width paddle / F32.of_int 2))%f32 in
    let c := set_speedX c (hitPos * 0.02f)%f32 in
    (* prevent the ball from getting stuck inside the paddle *)
    set_y c (Paddle.y paddle + Paddle.height paddle / F32.of_int 2 + radius c)%f32
  else c.

(** [void CheckWallCollision()]: check collision with screen edges. *)
Definition CheckWallCollision (c : t) : t :=
  (* left and right walls *)
  let c := if (x c - radius c <? F32.of_int (-1))%f32
           then set_speedX (set_x c (F32.of_int (-1) + radius c)%f32) (- speedX c)%f32
           else c in
  let c := if (x c + radius c >? F32.of_int 1)%f32
           then set_speedX (set_x c (F32.of_int 1 - radius c)%f32) (- speedX c)%f32
           else c in
  (* top wall *)
  let c := if (y c + radius c >? F32.of_int 1)%f32
           then set_speedY (set_y c (F32.of_int 1 - radius c)%f32) (- speedY c)%f32
           else c in
  (* bottom (circle disappears) *)
  let c := if (y c - radius c <? F32.of_int (-1))%f32
           then set_active c false
           else c in
  c.

(** The distance test of [CheckCollision(std::vector<Circle>&)].  [sqrt]
    is applied to a [float] and its result stored in a [float]; whether the
    overload taken is the [float] one or the [double] one, the stored value
    is the correctly rounded binary32 square root. *)
Definition touches (this other : t) : bool :=
  let dx := (x this - x other)%f32 in
  let dy := (y this - y other)%f32 in
  let distance := F32.sqrt (dx * dx + dy * dy)%f32 in
  (distance <? radius this + radius other)%f32.

(** The larger circle created on a merge; its colour is yellow. *)
Definition newCircle (this other : t) : t :=
  new ((x this + x other) / F32.of_int 2)%f32 ((y this + y other) / F32.of_int 2)%f32
      (radius this + radius other)%f32
      ((speedX this + speedX other) / F32.of_int 2)%f32
      ((speedY this + speedY other) / F32.of_int 2)%f32
      1.0f 1.0f 0.0f.

(** One turn of the loop [for (auto& other : circles)] of
    [CheckCollision(std::vector<Circle>&)], for the element at index [j];
    [this] is the element at index [self].  [Some v]: the two circles were
    merged, [v] is the vector after [push_back] and the loop is left by
    [break].  [None]: nothing was done, the loop goes on. *)
Definition merge_at (self j : nat) (circles : list t) : option (list t) :=
  match circles !! self, circles !! j with
  | Some this, Some other =>
      if negb (j =? self)%nat && active other then
        if touches this other then
          (* merge circles *)
          let circles' := alter (fun c => set_active c false) self circles in
          let circles' := alter (fun c => set_active c false) j circles' in
          (* create a new larger circle *)
          Some (circles' ++ [newCircle this other])
        else None
      else None
  | _, _ => None
  end.

(** The loop itself, from index [j] on, with [n] elements left. *)
Fixpoint merge_from (self j n : nat) (circles : list t) : list t :=
  match n with
  | O => circles
  | S n' =>
      match merge_at self j circles with
      | Some circles' => circles'
      | None => merge_from self (S j) n' circles
      end
  end.

(** [void CheckCollision(std::vector<Circle>& circles)]: check collision
    with other circles.  [this] is the element of [circles] at index
    [self], as in every call of the program. *)
Definition CheckCollision_circles (self : nat) (circles : list t) : list t :=
  merge_from self 0 (length circles) circles.

(** [void MoveOneStep()]: move circle based on speed. *)
Definition MoveOneStep (c : t) : t :=
  let c := set_x c (x c + speedX c)%f32 in
  set_y c (y c + speedY c)%f32.

End Circle.

(** ** Global variables and the main loop *)

(** The globals [world], [bricks] and [paddle].  [world_capacity] is
    [world.capacity()], never below [world.size()]. *)
Record Game := Build_Game {
  world : list Circle.t;
  world_capacity : nat;
  bricks : list Brick.t;
  paddle : Paddle.t
}.

(** [Paddle paddle(0.0f, -0.9f, 0.4f, 0.05f, 0.5f, 0.5f, 1.0f)] *)
Definition paddle0 : Paddle.t :=
  Paddle.Build 0.0f (- F32.lit 9 10)%f32 (F32.lit 4 10) (F32.lit 5 100) 0.5f 0.5f 1.0f.

Definition paddleSpeed : F32.float := F32.lit 5 100.

(** The bricks that [main] creates in a grid pattern, row by row. *)
Definition brick_at (i j : Z) : Brick.t :=
  let startX := (- F32.lit 8 10)%f32 in
  let startY := F32.lit 6 10 in
  let brickWidth := F32.lit 2 10 in
  let brickHeight := F32.lit 1 10 in
  let x := (startX + F32.of_int j * (brickWidth + 0.02f))%f32 in
  let y := (startY - F32.of_int i * (brickHeight + 0.02f))%f32 in
  let type := if (i + j) mod 2 =? 0 then DESTRUCTABLE else REFLECTIVE in
  let hitPoints := 3 in
  let r := match type with DESTRUCTABLE => 0.0f%f32 | REFLECTIVE => 0.5f%f32 end in
  let g := match type with DESTRUCTABLE => 1.0f%f32 | REFLECTIVE => 0.5f%f32 end in
  let b := 0.0f%f32 in
  Brick.new type x y brickWidth brickHeight r g b hitPoints.

Definition bricks0 : list Brick.t :=
  let rows := 3%nat in
  let cols := 8%nat in
  i ← seq 0 rows; j ← seq 0 cols; [brick_at (Z.of_nat i) (Z.of_nat j)].

(** The paddle part of [processInput]: the left and right arrow keys. *)
Definition processInput_paddle (left right : bool) (p : Paddle.t) : Paddle.t :=
  let p := if left then Paddle.move p (- paddleSpeed)%f32 else p in
  if right then Paddle.move p paddleSpeed else p.

(** [for (auto& brick : bricks) circle.CheckCollision(&brick);] *)
Fixpoint for_bricks (circle : Circle.t) (bs : list Brick.t) : Circle.t * list Brick.t :=
  match bs with
  | [] => (circle, [])
  | brick :: bs' =>
      let '(circle, brick) := Circle.CheckCollision_Brick circle brick in
      let '(circle, bs') := for_bricks circle bs' in
      (circle, brick :: bs')
  end.

(** What a walk over [world] comes to: it ends in a state of the game, or
    it goes on with iterators that a reallocation of [world] has
    invalidated, which leaves the behaviour of the program undefined. *)
Inductive outcome :=
  | Ok (g : Game)
  | InvalidatedIterator.

(** The body of [for (auto& circle : world)] in [main], for the element at
    index [i].  [circle] is a reference: what the member functions do to it
    is done to the element of [world]. *)
Definition visit (i : nat) (g : Game) : outcome :=
  match world g !! i with
  | None => Ok g
  | Some circle =>
      if Circle.active circle then
        let circle := Circle.MoveOneStep circle in
        let circle := Circle.CheckWallCollision circle in
        let circle := Circle.CheckCollision_Paddle circle (paddle g) in
        let '(circle, bricks') := for_bricks circle (bricks g) in
        let w := <[i := circle]> (world g) in
        let w' := Circle.CheckCollision_circles i w in
        if (length w <? length w')%nat && (world_capacity g <? length w')%nat
        then InvalidatedIterator  (* [push_back] had to reallocate *)
        else Ok (Build_Game w' (world_capacity g) bricks' (paddle g))
      else Ok g
  end.

(** The loop [for (auto& circle : world)]: [begin] and [end] are taken
    once, so it walks the elements that [world] has when it starts, from
    index [i], [n] of them left. *)
Fixpoint for_world (i n : nat) (g : Game) : outcome :=
  match n with
  | O => Ok g
  | S n' =>
      match visit i g with
      | Ok g' => for_world (S i) n' g'
      | InvalidatedIterator => InvalidatedIterator
      end
  end.

(** Movement and collision detection. *)
Definition movement_and_collision (g : Game) : outcome :=
  for_world 0 (length (world g)) g.

(** [std::remove_if(first, last, pred)] on a vector: one walk with a read
    and a write cursor; an element that is kept is written at the write
    cursor.  [buf] is the storage, [n] the number of elements left to read;
    the result is the storage and the returned iterator. *)
Fixpoint remove_if {A : Type} (pred : A -> bool) (buf : list A) (write read n : nat)
    : list A * nat :=
  match n with
  | O => (buf, write)
  | S n' =>
      match buf !! read with
      | None => (buf, write)
      | Some a =>
          if pred a then remove_if pred buf write (S read) n'
          else remove_if pred (<[write := a]> buf) (S write) (S read) n'
      end
  end.

(** [v.erase(it, v.end())] *)
Definition erase_to_end {A : Type} (v : list A) (it : nat) : list A := take it v.

(** Remove inactive circles:
    [world.erase(remove_if(world.begin(), world.end(),
                           [](Circle& c) { return !c.active; }), world.end())]. *)
Definition remove_inactive (w : list Circle.t) : list Circle.t :=
  let '(buf, it) := remove_if (fun c => negb (Circle.active c)) w 0 0 (length w) in
  erase_to_end buf it.

(** One turn of the main loop in which no circle is launched, without its
    drawing: the keys of the paddle, movement and collision detection,
    removal of the inactive circles. *)
Definition frame (left right : bool) (g : Game) : outcome :=
  let g := Build_Game (world g) (world_capacity g) (bricks g)
                      (processInput_paddle left right (paddle g)) in
  match movement_and_collision g with
  | Ok g => Ok (Build_Game (remove_inactive (world g)) (world_capacity g)
                           (bricks g) (paddle g))
  | InvalidatedIterator => InvalidatedIterator
  end.

(** ** [processInput] and a whole turn of the main loop *)

(** What [glfwGetKey] answers in one frame: [true] is [GLFW_PRESS]. *)
Record Keys := Build_Keys {
  KEY_ESCAPE : bool;
  KEY_LEFT : bool;
  KEY_RIGHT : bool;
  KEY_SPACE : bool
}.

(** The state of the program between two turns of the main loop: the
    globals, the static [spacePressed] of [processInput], the close flag of
    the window, and the number of calls of [rand] made so far. *)
Record Program := Build_Program {
  game : Game;
  spacePressed : bool;
  WindowShouldClose : bool;
  rand_calls : nat
}.

(** How a turn of the main loop ends: with the program in a state, or on
    the invalidated iterators of the loop over [world]. *)
Inductive run :=
  | Running (s : Program)
  | Undefined.

Section ProcessInput.

(** [RAND_MAX] of <stdlib.h>; the values that the calls of [rand] return,
    by the number of the call; the capacity that the implementation gives a
    full vector when it grows, by the capacity it had. *)
Variable RAND_MAX : Z.
Variable rand : nat -> Z.
Variable grow : nat -> nat.

(** [world.push_back(c)] outside of any loop over [world]: a full vector
    grows, to room for the new element at the least. *)
Definition push_back (g : Game) (c : Circle.t) : Game :=
  let capacity :=
    if (length (world g) <? world_capacity g)%nat then world_capacity g
    else Nat.max (grow (world_capacity g)) (S (length (world g))) in
  Build_Game (world g ++ [c]) capacity (bricks g) (paddle g).

(** [static_cast<float>(rand()) / RAND_MAX], for the value [r] of [rand]. *)
Definition launch_colour (r : Z) : F32.float :=
  (F32.of_int r / F32.of_int RAND_MAX)%f32.

(** The circle that the space key launches, from four values of [rand]. *)
Definition launch (r1 r2 r3 r4 : Z) : Circle.t :=
  let r := launch_colour r1 in
  let g := launch_colour r2 in
  let b := launch_colour r3 in
  (* random speed between -0.02 and 0.02; [%] truncates as [Z.rem] does *)
  let speedX := (F32.of_int (wrap_int (Z.rem r4 200 - 100)) / F32.lit 5000 1)%f32 in
  let speedY := 0.02f%f32 in  (* initial upward speed *)
  Circle.new 0.0f (- F32.lit 85 100)%f32 (F32.lit 3 100) speedX speedY r g b.

(** [void processInput(GLFWwindow* window)] *)
Definition processInput (keys : Keys) (s : Program) : Program :=
  let close := if KEY_ESCAPE keys then true else WindowShouldClose s in
  (* paddle movement *)
  let g := Build_Game (world (game s)) (world_capacity (game s)) (bricks (game s))
             (processInput_paddle (KEY_LEFT keys) (KEY_RIGHT keys) (paddle (game s))) in
  (* launch circle on space key press *)
  if KEY_SPACE keys then
    if negb (spacePressed s) then
      (* only add a new circle on key press event, not while key is held down *)
      let n := rand_calls s in
      let newCircle := launch (rand n) (rand (1 + n)) (rand (2 + n)) (rand (3 + n)) in
      Build_Program (push_back g newCircle) true close (4 + n)
    else Build_Program g (spacePressed s) close (rand_calls s)
  else Build_Program g false close (rand_calls s).

(** One turn of the main loop without its drawing: [processInput],
    movement and collision detection, removal of the inactive circles. *)
Definition turn (keys : Keys) (s : Program) : run :=
  let s := processInput keys s in
  match movement_and_collision (game s) with
  | Ok g =>
      Running (Build_Program
                 (Build_Game (remove_inactive (world g)) (world_capacity g)
                             (bricks g) (paddle g))
                 (spacePressed s) (WindowShouldClose s) (rand_calls s))
  | InvalidatedIterator => Undefined
  end.

(** The main loop, [while (!glfwWindowShouldClose(window))], for the keys
    of successive frames: it ends when the window is to close. *)
Fixpoint turns (frames : list Keys) (s : Program) : run :=
  match frames with
  | [] => Running s
  | keys :: frames' =>
      if WindowShouldClose s then Running s
      else
        match turn keys s with
        | Running s' => turns frames' s'
        | Undefined => Undefined
        end
  end.

End ProcessInput.

(** The program when the main loop starts: the bricks are made, [world]
    is empty and owns no storage, no key was seen, [rand] was not called. *)
Definition program0 : Program :=
  Build_Program (Build_Game [] 0 bricks0 paddle0) false false 0.

(** * Notions used to state the properties *)

(** The limits of [int]. *)
Definition INT_MAX : Z := 2 ^ 31 - 1.
Definition INT_MIN : Z := - 2 ^ 31.

(** The brick after the circles of [cs] have been checked against it, one
    after the other. *)
Definition collisions (cs : list Circle.t) (brk : Brick.t) : Brick.t :=
  foldl (fun b c => snd (Circle.CheckCollision_Brick c b)) brk cs.

(** A circle as its merge check finds it in a turn of the loop of [main]:
    moved, and checked against the walls, the paddle and the bricks. *)
Definition moved (circle : Circle.t) (g : Game) : Circle.t :=
  fst (for_bricks
         (Circle.CheckCollision_Paddle
            (Circle.CheckWallCollision (Circle.MoveOneStep circle)) (paddle g))
         (bricks g)).

(** The game when [processInput] has moved the paddle. *)
Definition after_keys (left right : bool) (g : Game) : Game :=
  Build_Game (world g) (world_capacity g) (bricks g)
             (processInput_paddle left right (paddle g)).

(** The paddle after a sequence of calls of [move]. *)
Definition moves (dxs : list F32.float) (p : Paddle.t) : Paddle.t :=
  foldl Paddle.move p dxs.

(** Kinds of [float] values. *)
Definition is_nan (a : F32.float) : bool :=
  match a with S754_nan => true | _ => false end.
Definition is_zero (a : F32.float) : bool :=
  match a with S754_zero _ => true | _ => false end.

(** ** Situations of the game *)

Definition white : F32.float := 1.0f%f32.

(** Two circles falling side by side to the right of the paddle, the lower
    one about to cross the bottom of the screen. *)
Definition falling_low : Circle.t :=
  Circle.new 0.5f (- F32.lit 98 100)%f32 (F32.lit 3 100) 0.0f (- 0.02f)%f32 white white white.
Definition falling_high : Circle.t :=
  Circle.new 0.5f (- F32.lit 96 100)%f32 (F32.lit 3 100) 0.0f (- 0.02f)%f32 white white white.

Definition lost_and_merged : Game :=
  Build_Game [falling_low; falling_high] 4 bricks0 paddle0.

(** Three circles rising close to each other, in a vector with room for
    the circles that merges append. *)
Definition rising (y : F32.float) : Circle.t :=
  Circle.new 0.0f y (F32.lit 3 100) 0.0f 0.02f white white white.

Definition three_rising : Game :=
  Build_Game [rising (- 0.5f)%f32; rising (- F32.lit 49 100)%f32;
              rising (- F32.lit 48 100)%f32] 8 bricks0 paddle0.

(** A circle rising and a circle falling through each other above the
    paddle, and what their merge creates: a circle without vertical speed. *)
Definition going_up : Circle.t :=
  Circle.new 0.0f (- F32.lit 84 100)%f32 (F32.lit 3 100) 0.0f 0.02f white white white.
Definition going_down : Circle.t :=
  Circle.new 0.0f (- F32.lit 82 100)%f32 (F32.lit 3 100) 0.0f (- 0.02f)%f32 white white white.
Definition hovering : Circle.t := Circle.newCircle going_up going_down.

(** The two of them alone in [world], which is full: two calls of
    [push_back] on the empty vector left it with a capacity of 2. *)
Definition two_meeting : Game :=
  Build_Game [going_down; going_up] 2 bricks0 paddle0.

(** A paddle of width 0.5 with its left edge on the left edge of the
    screen, and the smallest step to the left from there. *)
Definition paddle_at_left : Paddle.t :=
  Paddle.Build (- F32.lit 75 100)%f32 (- F32.lit 9 10)%f32 0.5f (F32.lit 5 100) 0.5f 0.5f 1.0f.
Definition tiny_left : F32.float := S754_finite true 8388608 (-47).  (* -2^-24 *)

(** The keys of the paddle, frame after frame, from the start of the
    program: [(left, right)] for each frame. *)
Definition keys_pressed (keys : list (bool * bool)) (p : Paddle.t) : Paddle.t :=
  foldl (fun p k => processInput_paddle (fst k) (snd k) p) p keys.

(** The centre of the paddle of the program after one call of [move] made
    at the centre [x]. *)
Definition key_move (x dx : F32.float) : F32.float :=
  Paddle.x (Paddle.move (Paddle.set_x paddle0 x) dx).

#[global] Instance float_eq_dec : EqDecision F32.float.
Proof. solve_decision. Defined.

(** The centres that the paddle of the program can be at: those that calls
    of [move(paddleSpeed)] and [move(-paddleSpeed)] reach from the start. *)
Fixpoint explore (fuel : nat) (seen todo : list F32.float) : list F32.float :=
  match fuel with
  | O => seen
  | S fuel' =>
      match todo with
      | [] => seen
      | x :: todo' =>
          if bool_decide (x ∈ seen) then explore fuel' seen todo'
          else explore fuel' (x :: seen)
                       (key_move x paddleSpeed :: key_move x (- paddleSpeed)%f32 :: todo')
      end
  end.

Definition paddle_centres : list F32.float :=
  Eval vm_compute in explore 1000 [] [Paddle.x paddle0].

(** A paddle in the middle of the screen and a circle on it. *)
Definition paddle_mid : Paddle.t :=
  Paddle.Build 0.0f 0.0f (F32.lit 4 10) (F32.lit 25 100) 0.5f 0.5f 1.0f.
Definition on_paddle_mid : Circle.t :=
  Circle.new 0.0f 0.0f (F32.lit 1 10) 0.0f (- 0.02f)%f32 white white white.

(** ** Binary32 numbers as integers

    The value [m * 2^e] of a mantissa and an exponent, in units of 2^-149,
    the least positive binary32 number; the exponent that binary32 gives to
    a number of magnitude below [2^e]. *)
Definition ulps (m e : Z) : Z := m * 2 ^ (e + 149).
Definition fexp32 (e : Z) : Z := Z.max (e - 24) (-149).

(** The shape of a rounded result, with what it is worth. *)
Definition rounded_as (s : bool) (m3 e3 : Z) : spec_float :=
  match m3 with
  | Z0 => S754_zero s
  | Zpos m => if e3 <=? F32.emax - F32.prec then S754_finite s m e3 else S754_infinity s
  | Zneg _ => S754_nan
  end.

(** The exact value of a finite [float], in units of 2^-149: 1 is 2^149
    and 2^-26 is 2^123 of them. *)
Definition exact_value (a : F32.float) : option Z :=
  match a with
  | S754_zero _ => Some 0
  | S754_finite s m e => if e <? -149 then None else Some (cond_Zopp s (ulps (Zpos m) e))
  | _ => None
  end.

(** Where a centre [x] of the paddle of the program is, in exact values:
    within 2^-26 of the interval from [-1 + width / 2] to [1 - width / 2],
    and inside of it unless it is one of the two values that [move] assigns
    at the edges of the screen. *)
Definition centre_on_screen (x : F32.float) : bool :=
  let half := (Paddle.width paddle0 / F32.of_int 2)%f32 in
  match exact_value x, exact_value half, exact_value (F32.of_int 1) with
  | Some v, Some h, Some one =>
      (- (one - h) - 2 ^ 123 <=? v) && (v <=? one - h + 2 ^ 123) &&
      ((- (one - h) <=? v) && (v <=? one - h)
       || bool_decide (x = (F32.of_int (-1) + half)%f32)
       || bool_decide (x = (F32.of_int 1 - half)%f32))
  | _, _, _ => false
  end.

(** A negative binary32 number, or minus infinity, of magnitude [v] at
    least, in units of 2^-149. *)
Definition negative_at_least (v : Z) (a : F32.float) : Prop :=
  a = S754_infinity true \/
  exists m e, a = S754_finite true m e /\ F32.valid a = true /\ v <= ulps (Zpos m) e.

(** A circle under the brick of column [j] of the first row, touching it. *)
Definition under_brick (j : Z) : Circle.t :=
  Circle.new (Brick.x (brick_at 0 j)) (F32.lit 55 100) (F32.lit 3 100) 0.0f 0.02f
             white white white.

(** A circle that fell far below the screen. *)
Definition far_below : Circle.t :=
  Circle.new 0.5f (- F32.lit 104 100)%f32 (F32.lit 3 100) 0.0f (- 0.02f)%f32 white white white.

(** ** Notions for the properties of the loops *)

(** The circle with its vertical speed reversed, as a brick leaves it. *)
Definition flipped (c : Circle.t) : Circle.t :=
  Circle.set_speedY c (- Circle.speedY c)%f32.

(** The brick is [ON] and the box of the circle overlaps it. *)
Definition strikes (c : Circle.t) (brk : Brick.t) : bool :=
  match Brick.onoff brk with
  | ON => Circle.hits_brick c brk
  | OFF => false
  end.

(** The number of active circles of a vector. *)
Definition count_active (w : list Circle.t) : nat :=
  length (filter (fun c => Circle.active c = true) w).

(** What stays of a circle whatever happens to it in the loop of [main]:
    radius and colour, and the magnitude of the vertical speed; and a
    circle that is not active is not changed at all. *)
Definition same_ball (c c' : Circle.t) : Prop :=
  Circle.radius c' = Circle.radius c /\
  (Circle.red c', Circle.green c', Circle.blue c') =
    (Circle.red c, Circle.green c, Circle.blue c) /\
  F32.fabs (Circle.speedY c') = F32.fabs (Circle.speedY c) /\
  (Circle.active c = false -> c' = c).

(** The number of times that a key goes from released to pressed, [prev]
    being its state before the first frame. *)
Fixpoint rising_edges (prev : bool) (presses : list bool) : nat :=
  match presses with
  | [] => 0
  | pressed :: presses' =>
      (if pressed && negb prev then 1 else 0) + rising_edges pressed presses'
  end.

(** The frames that the main loop plays: those up to the first one with
    the escape key, none when the window is to close already. *)
Fixpoint played (closed : bool) (frames : list Keys) : list Keys :=
  match frames with
  | [] => []
  | keys :: frames' =>
      if closed then [] else keys :: played (KEY_ESCAPE keys) frames'
  end.

(** The horizontal speeds that a launch can give: [(k - 100) / 5000.0f]
    for the 200 values [k] of [rand() % 200]. *)
Definition launch_speeds : list F32.float :=
  map (fun k => (F32.of_int (wrap_int (k - 100)) / F32.lit 5000 1)%f32)
      (map Z.of_nat (seq 0 200)).

(** A [float] that is neither infinite nor a NaN; one that is, besides,
    not zero. *)
Definition is_finite (a : F32.float) : bool :=
  match a with S754_zero _ | S754_finite _ _ _ => true | _ => false end.
Definition is_finite_nonzero (a : F32.float) : bool :=
  match a with S754_finite _ _ _ => true | _ => false end.

(** * Properties *)

(** Reading a field of a circle that a setter built. *)
Ltac circle_fields :=
  cbn [Circle.x Circle.y Circle.radius Circle.speedX Circle.speedY Circle.active
       Circle.set_x Circle.set_y Circle.set_speedX Circle.set_speedY Circle.set_active].

(** ** The literals of the program *)

(** The bit patterns of [0.02f], [0.03f], [0.9f] and [-1] as IEEE-754
    binary32 has them: 0x3CA3D70A, 0x3CF5C28F, 0x3F666666 and 0xBF800000,
    that is mantissa (with its leading bit) and exponent of the last
    mantissa bit. *)
Lemma literals :
  0.02f%f32 = S754_finite false 0xA3D70A (-29) /\
  F32.lit 3 100 = S754_finite false 0xF5C28F (-29) /\
  F32.lit 9 10 = S754_finite false 0xE66666 (-24) /\
  F32.of_int (-1) = S754_finite true 0x800000 (-23).
Proof. repeat split. Qed.

(** ** Bricks under collisions *)

Lemma wrap_int_id (n : Z) : INT_MIN <= n <= INT_MAX -> wrap_int n = n.
Proof.
  unfold INT_MIN, INT_MAX, wrap_int. intros H.
  rewrite Z.mod_small by lia. lia.
Qed.

Lemma collisions_snoc (cs : list Circle.t) (c : Circle.t) (brk : Brick.t) :
  collisions (cs ++ [c]) brk = snd (Circle.CheckCollision_Brick c (collisions cs brk)).
Proof. unfold collisions. now rewrite foldl_app. Qed.

(** A collision changes neither the place, nor the size, nor the type of a
    brick: the box test of a circle against it stays what it was. *)
Lemma CheckCollision_Brick_geometry (c : Circle.t) (brk : Brick.t) :
  let brk' := snd (Circle.CheckCollision_Brick c brk) in
  Brick.x brk' = Brick.x brk /\ Brick.y brk' = Brick.y brk /\
  Brick.width brk' = Brick.width brk /\ Brick.height brk' = Brick.height brk /\
  Brick.brick_type brk' = Brick.brick_type brk.
Proof.
  unfold Circle.CheckCollision_Brick.
  destruct (Brick.onoff brk); [|simpl; tauto].
  destruct (Circle.hits_brick c brk); [|simpl; tauto].
  destruct (Brick.brick_type brk) eqn:Ht; [simpl; tauto|].
  unfold Brick.updateColor. cbn [Brick.set_hitPoints Brick.brick_type Brick.hitPoints].
  rewrite Ht.
  repeat match goal with |- context [if ?b then _ else _] => destruct b end;
    simpl; tauto.
Qed.

Lemma hits_brick_geometry (c : Circle.t) (b b' : Brick.t) :
  Brick.x b' = Brick.x b -> Brick.y b' = Brick.y b ->
  Brick.width b' = Brick.width b -> Brick.height b' = Brick.height b ->
  Circle.hits_brick c b' = Circle.hits_brick c b.
Proof. unfold Circle.hits_brick. now intros -> -> -> ->. Qed.

(** The destructible branch of [CheckCollision(Brick* )], on the brick. *)
Lemma CheckCollision_Brick_destructible (c : Circle.t) (brk : Brick.t) :
  Brick.brick_type brk = DESTRUCTABLE -> Brick.onoff brk = ON ->
  Circle.hits_brick c brk = true ->
  INT_MIN < Brick.hitPoints brk <= INT_MAX ->
  let h := Brick.hitPoints brk - 1 in
  let brk' := snd (Circle.CheckCollision_Brick c brk) in
  Brick.hitPoints brk' = h /\
  Brick.onoff brk' = (if h <=? 0 then OFF else ON) /\
  (Brick.red brk', Brick.green brk', Brick.blue brk') =
    (if h =? 2 then (1.0f, 0.5f, 0.0f)
     else if h =? 1 then (1.0f, 0.0f, 0.0f)
     else (Brick.red brk, Brick.green brk, Brick.blue brk))%f32.
Proof.
  intros Ht Hon Hhit Hrange. unfold Circle.CheckCollision_Brick.
  rewrite Hon, Hhit, Ht. unfold Brick.updateColor.
  cbn [Brick.set_hitPoints Brick.brick_type Brick.hitPoints].
  rewrite Ht, wrap_int_id by (unfold INT_MIN, INT_MAX in *; lia).
  destruct (Z.eqb_spec (Brick.hitPoints brk - 1) 2) as [E2|E2].
  { rewrite E2. simpl. auto. }
  destruct (Z.eqb_spec (Brick.hitPoints brk - 1) 1) as [E1|E1].
  { rewrite E1. simpl. auto. }
  destruct (Brick.hitPoints brk - 1 <=? 0) eqn:E0; cbn; rewrite ?E0, ?Hon; auto.
Qed.

(** C8.  A collision of a circle with an active reflective brick leaves the
    brick as it is, field for field, and changes the circle in its vertical
    speed only, whose sign it flips; so the brick is still the same, and
    still [ON], after any number of collisions. *)
Theorem reflective_brick_unchanged (brk : Brick.t) :
  Brick.brick_type brk = REFLECTIVE -> Brick.onoff brk = ON ->
  (forall c, Circle.hits_brick c brk = true ->
     Circle.CheckCollision_Brick c brk = (Circle.set_speedY c (- Circle.speedY c)%f32, brk)) /\
  (forall cs, collisions cs brk = brk /\ Brick.onoff (collisions cs brk) = ON).
Proof.
  intros Ht Hon.
  assert (Hone : forall c, snd (Circle.CheckCollision_Brick c brk) = brk).
  { intros c. unfold Circle.CheckCollision_Brick. rewrite Hon, Ht.
    now destruct (Circle.hits_brick c brk). }
  split.
  - intros c Hhit. unfold Circle.CheckCollision_Brick. now rewrite Hon, Hhit, Ht.
  - intros cs.
    assert (Hall : collisions cs brk = brk).
    { induction cs as [|c cs IH] using rev_ind; [reflexivity|].
      now rewrite collisions_snoc, IH, Hone. }
    now rewrite Hall.
Qed.

(** The second brick of the first row is reflective; two circles under it
    leave it as it is. *)
Lemma reflective_brick_unchanged_witness :
  collisions [under_brick 1; under_brick 1] (brick_at 0 1) = brick_at 0 1.
Proof.
  refine (proj1 (proj2 (reflective_brick_unchanged (brick_at 0 1) _ _) _)).
  - reflexivity.
  - reflexivity.
Defined.

(** C4.  A destructible brick that is [ON] with [N >= 1] hit points, hit by
    [k <= N] circles one after the other: each hit takes one hit point, so
    [N - k] are left; the brick is [OFF] exactly when [k = N], that is on the
    [N]-th hit and not before; and the last of the hits coloured the brick
    orange when it left 2 hit points, red when it left 1, and kept the
    colour otherwise. *)
Theorem destructible_brick_hits (N : Z) (brk : Brick.t) (cs : list Circle.t) :
  1 <= N <= INT_MAX ->
  Brick.brick_type brk = DESTRUCTABLE -> Brick.onoff brk = ON ->
  Brick.hitPoints brk = N ->
  Forall (fun c => Circle.hits_brick c brk = true) cs ->
  Z.of_nat (length cs) <= N ->
  let k := Z.of_nat (length cs) in
  let brk' := collisions cs brk in
  Brick.hitPoints brk' = N - k /\
  (Brick.onoff brk' = OFF <-> k = N) /\
  (Brick.hitPoints brk' = 0 <-> k = N) /\
  forall cs0 c, cs = cs0 ++ [c] ->
    let before := collisions cs0 brk in
    Brick.hitPoints brk' = Brick.hitPoints before - 1 /\
    (Brick.red brk', Brick.green brk', Brick.blue brk') =
      (if N - k =? 2 then (1.0f, 0.5f, 0.0f)
       else if N - k =? 1 then (1.0f, 0.0f, 0.0f)
       else (Brick.red before, Brick.green before, Brick.blue before))%f32.
Proof.
  intros HN Ht Hon Hhp Hall Hk.
  assert (Hinv : forall cs, Forall (fun c => Circle.hits_brick c brk = true) cs ->
            Z.of_nat (length cs) <= N ->
            let b := collisions cs brk in
            Brick.hitPoints b = N - Z.of_nat (length cs) /\
            Brick.onoff b = (if N - Z.of_nat (length cs) <=? 0 then OFF else ON) /\
            Brick.brick_type b = DESTRUCTABLE /\
            (forall c, Circle.hits_brick c b = Circle.hits_brick c brk)).
  { clear cs Hall Hk. intros cs.
    induction cs as [|c cs IH] using rev_ind; intros Hall Hk.
    - simpl. rewrite Z.sub_0_r. repeat split; auto.
      destruct (Z.leb_spec N 0); [lia|auto].
    - rewrite length_app in *. simpl in Hk. apply Forall_app in Hall as [Hall Hc].
      apply Forall_inv in Hc.
      destruct IH as (IHhp & IHon & IHt & IHg); [assumption|lia|].
      destruct (Z.leb_spec (N - Z.of_nat (length cs)) 0); [lia|].
      cbn zeta. rewrite collisions_snoc.
      pose proof (CheckCollision_Brick_geometry c (collisions cs brk)) as (Gx & Gy & Gw & Gh & Gt).
      destruct (CheckCollision_Brick_destructible c (collisions cs brk)) as (Dhp & Don & _);
        [assumption|assumption|rewrite IHg; exact Hc|unfold INT_MIN, INT_MAX in *; lia|].
      rewrite Dhp, Don, IHhp. simpl length.
      replace (N - Z.of_nat (length cs + 1)) with (N - Z.of_nat (length cs) - 1) by lia.
      repeat split; try congruence.
      intros c'. rewrite <- IHg. now apply hits_brick_geometry. }
  destruct (Hinv cs Hall Hk) as (Ihp & Ion & _ & _).
  cbn zeta. repeat split.
  - exact Ihp.
  - rewrite Ion. destruct (Z.leb_spec (N - Z.of_nat (length cs)) 0); [lia|discriminate].
  - intros E. rewrite Ion. destruct (Z.leb_spec (N - Z.of_nat (length cs)) 0); [reflexivity|lia].
  - rewrite Ihp. lia.
  - rewrite Ihp. lia.
  - subst cs. rewrite length_app in Hk. simpl in Hk.
    apply Forall_app in Hall as [Hall0 _].
    destruct (Hinv cs0 Hall0) as (Bhp & Bon & Bt & Bg); [lia|].
    rewrite Ihp, Bhp, length_app. simpl. lia.
  - subst cs. rewrite length_app in Hk |- *. simpl in Hk.
    apply Forall_app in Hall as [Hall0 Hc]. apply Forall_inv in Hc.
    destruct (Hinv cs0 Hall0) as (Bhp & Bon & Bt & Bg); [lia|].
    destruct (Z.leb_spec (N - Z.of_nat (length cs0)) 0); [lia|].
    rewrite collisions_snoc.
    destruct (CheckCollision_Brick_destructible c (collisions cs0 brk)) as (_ & _ & Dcol);
      [assumption|assumption|rewrite Bg; exact Hc|unfold INT_MIN, INT_MAX in *; lia|].
    rewrite Dcol, Bhp. simpl length.
    replace (N - Z.of_nat (length cs0) - 1) with (N - Z.of_nat (length cs0 + 1)) by lia.
    reflexivity.
Qed.

(** The first brick of the first row is destructible and has 3 hit
    points; three circles under it bring it to 0 and switch it off. *)
Lemma destructible_brick_hits_witness :
  let cs := [under_brick 0; under_brick 0; under_brick 0] in
  Brick.hitPoints (collisions cs (brick_at 0 0)) = 3 - 3.
Proof.
  intros cs.
  refine (proj1 (destructible_brick_hits 3 (brick_at 0 0) cs _ _ _ _ _ _)).
  - unfold INT_MAX. lia.
  - reflexivity.
  - reflexivity.
  - reflexivity.
  - repeat constructor.
  - simpl. lia.
Defined.

(** ** Removal of the inactive circles *)

(** [remove_if] moves the elements that are kept to the front, in their
    order: up to the returned iterator the storage holds what was below the
    write cursor, then the elements from the read cursor on that [pred]
    rejects. *)
Lemma remove_if_take {A : Type} (pred : A -> bool) (n : nat) (buf : list A)
    (write read : nat) :
  (write <= read)%nat -> (read + n = length buf)%nat ->
  take (snd (remove_if pred buf write read n)) (fst (remove_if pred buf write read n)) =
  take write buf ++ filter (fun a => pred a = false) (drop read buf).
Proof.
  revert buf write read. induction n as [|n IH]; intros buf write read Hw Hlen; simpl.
  - rewrite drop_ge by lia. now rewrite app_nil_r.
  - destruct (buf !! read) as [a|] eqn:Ha;
      [|apply lookup_ge_None in Ha; lia].
    rewrite (drop_S _ _ _ Ha).
    destruct (pred a) eqn:Ep.
    + rewrite filter_cons_False by congruence. apply IH; lia.
    + rewrite IH by (rewrite ?length_insert; lia).
      rewrite (take_S_r _ _ a) by (apply list_lookup_insert_eq; lia).
      rewrite take_insert_ge by lia.
      rewrite drop_insert_lt by lia.
      rewrite filter_cons_True by assumption.
      now rewrite <- app_assoc.
Qed.

Lemma remove_inactive_filter (w : list Circle.t) :
  remove_inactive w = filter (fun c => Circle.active c = true) w.
Proof.
  unfold remove_inactive, erase_to_end.
  pose proof (remove_if_take (fun c => negb (Circle.active c)) (length w) w 0 0) as H.
  destruct (remove_if _ w 0 0 (length w)) as [buf it]. simpl in H.
  rewrite H by lia. rewrite drop_0.
  apply list_filter_iff. intros c. now destruct (Circle.active c).
Qed.

(** ** The walk over [world] *)

Lemma merge_at_length (self j : nat) (circles circles' : list Circle.t) :
  Circle.merge_at self j circles = Some circles' ->
  length circles' = S (length circles).
Proof.
  unfold Circle.merge_at. intros H.
  destruct (circles !! self) as [this|]; [|discriminate].
  destruct (circles !! j) as [other|]; [|discriminate].
  destruct (negb (j =? self)%nat && Circle.active other); [|discriminate].
  destruct (Circle.touches this other); [|discriminate].
  injection H as <-. rewrite length_app, !length_alter. simpl. lia.
Qed.

Lemma merge_from_length (self j n : nat) (circles : list Circle.t) :
  length (Circle.merge_from self j n circles) = length circles \/
  length (Circle.merge_from self j n circles) = S (length circles).
Proof.
  revert j. induction n as [|n IH]; intros j; simpl; [now left|].
  destruct (Circle.merge_at self j circles) eqn:E; [|apply IH].
  right. eauto using merge_at_length.
Qed.

(** One turn of the loop of [main] appends at most one circle. *)
Lemma visit_length (i : nat) (g g' : Game) :
  visit i g = Ok g' ->
  (length (world g) <= length (world g') <= S (length (world g)))%nat /\
  world_capacity g' = world_capacity g.
Proof.
  unfold visit. destruct (world g !! i) as [circle|]; [|intros [= <-]; lia].
  destruct (Circle.active circle); [|intros [= <-]; lia].
  destruct (for_bricks _ (bricks g)) as [circle' bricks'].
  match goal with |- context [Circle.CheckCollision_circles i ?w] =>
    pose proof (merge_from_length i 0 (length w) w) as Hl;
    fold (Circle.CheckCollision_circles i w) in Hl; rewrite length_insert in * end.
  destruct (_ && _); [discriminate|]. intros [= <-]. simpl. lia.
Qed.

(** With room for one more circle the turn does not reallocate. *)
Lemma visit_ok (i : nat) (g : Game) :
  (length (world g) < world_capacity g)%nat -> exists g', visit i g = Ok g'.
Proof.
  intros Hcap. unfold visit. destruct (world g !! i) as [circle|]; [|eauto].
  destruct (Circle.active circle); [|eauto].
  destruct (for_bricks _ (bricks g)) as [circle' bricks'].
  match goal with |- context [Circle.CheckCollision_circles i ?w] =>
    pose proof (merge_from_length i 0 (length w) w) as Hl;
    fold (Circle.CheckCollision_circles i w) in Hl; rewrite length_insert in * end.
  destruct (_ <? _)%nat eqn:E1; simpl; [|eauto].
  destruct (world_capacity g <? _)%nat eqn:E2; [|eauto].
  apply Nat.ltb_lt in E2. lia.
Qed.

Lemma for_world_ok (n i : nat) (g : Game) :
  (length (world g) + n <= world_capacity g)%nat -> exists g', for_world i n g = Ok g'.
Proof.
  revert i g. induction n as [|n IH]; intros i g Hcap; simpl; [eauto|].
  destruct (visit_ok i g) as [g1 E1]; [lia|]. rewrite E1.
  apply visit_length in E1 as [Hl Hc]. apply IH. lia.
Qed.

(** A vector with room for as many circles again as it holds is never
    reallocated during the movement and collision detection. *)
Lemma movement_and_collision_ok (g : Game) :
  (2 * length (world g) <= world_capacity g)%nat ->
  exists g', movement_and_collision g = Ok g'.
Proof. intros H. apply for_world_ok. lia. Qed.

(** C7.  When a turn of the main loop is through, the circles left in
    [world] are those of [world] after the movement and collision detection
    whose [active] flag is set, each as often as before and in the same
    order: an inactive circle is gone, an active one is kept. *)
Theorem compaction_keeps_the_active (left right : bool) (g g' : Game) :
  frame left right g = Ok g' ->
  exists g1,
    movement_and_collision
      (Build_Game (world g) (world_capacity g) (bricks g)
                  (processInput_paddle left right (paddle g))) = Ok g1 /\
    world g' = filter (fun c => Circle.active c = true) (world g1) /\
    (forall c, c ∈ world g' <-> c ∈ world g1 /\ Circle.active c = true).
Proof.
  unfold frame. intros H.
  destruct (movement_and_collision _) as [g1|]; [|discriminate].
  injection H as <-. exists g1. simpl. rewrite remove_inactive_filter.
  split; [reflexivity|]. split; [reflexivity|].
  intros c. rewrite list_elem_of_filter. tauto.
Qed.

(** The turn of the two falling circles. *)
Lemma compaction_keeps_the_active_witness :
  exists g' g1,
    frame false false lost_and_merged = Ok g' /\
    movement_and_collision lost_and_merged = Ok g1 /\
    world g' = filter (fun c => Circle.active c = true) (world g1).
Proof.
  destruct (frame false false lost_and_merged) as [g'|] eqn:E.
  - destruct (compaction_keeps_the_active false false lost_and_merged g' E)
      as (g1 & H1 & H2 & _).
    exists g', g1. split; [reflexivity|]. split; [exact H1|exact H2].
  - exfalso. vm_compute in E. discriminate.
Defined.

(** ** The merge of two circles *)

Lemma alter_set (f : Circle.t -> Circle.t) (i : nat) (l : list Circle.t) (a : Circle.t) :
  l !! i = Some a -> alter f i l = <[i := f a]> l.
Proof.
  intros H. rewrite list_insert_alter. apply list_alter_ext; [|reflexivity].
  intros b Hb. congruence.
Qed.

Lemma merge_from_first (self j : nat) (circles merged : list Circle.t) :
  (forall k, (k < j)%nat -> Circle.merge_at self k circles = None) ->
  Circle.merge_at self j circles = Some merged ->
  forall n k, (k <= j < k + n)%nat -> Circle.merge_from self k n circles = merged.
Proof.
  intros Hbefore Hat. induction n as [|n IH]; intros k Hk; [lia|]. simpl.
  destruct (decide (k = j)) as [->|Hne].
  - now rewrite Hat.
  - rewrite Hbefore by lia. apply IH. lia.
Qed.

(** The merge check on a vector, spelled out. *)
Lemma merge_first_touching (circles : list Circle.t) (i j : nat) (A B : Circle.t) :
  circles !! i = Some A -> circles !! j = Some B -> i <> j ->
  Circle.active B = true -> Circle.touches A B = true ->
  (forall k o, (k < j)%nat -> k <> i -> circles !! k = Some o ->
     Circle.active o = true -> Circle.touches A o = false) ->
  Circle.CheckCollision_circles i circles =
    <[j := Circle.set_active B false]> (<[i := Circle.set_active A false]> circles)
    ++ [Circle.newCircle A B].
Proof.
  intros HA HB Hij HactB Htouch Hfirst.
  assert (Hj : (j < length circles)%nat) by (eapply lookup_lt_Some; eauto).
  unfold Circle.CheckCollision_circles.
  apply (merge_from_first i j); [| |lia].
  - intros k Hk. unfold Circle.merge_at. rewrite HA.
    destruct (circles !! k) as [o|] eqn:Ho; [|reflexivity].
    destruct (Nat.eqb_spec k i) as [->|Hki]; [reflexivity|]. simpl.
    destruct (Circle.active o) eqn:Hact; [|reflexivity].
    now rewrite (Hfirst k o).
  - unfold Circle.merge_at. rewrite HA, HB.
    destruct (Nat.eqb_spec j i) as [->|_]; [congruence|]. simpl.
    rewrite HactB, Htouch.
    rewrite (alter_set _ i circles A) by assumption.
    rewrite (alter_set _ j _ B) by (now rewrite list_lookup_insert_ne).
    reflexivity.
Qed.

(** One turn of the main loop on two circles that merge. *)
Lemma frame_of_two (left right : bool) (g : Game) (A B : Circle.t) :
  world g = [A; B] -> Circle.active A = true -> Circle.active B = true ->
  (3 <= world_capacity g)%nat ->
  Circle.touches (moved A (after_keys left right g)) B = true ->
  exists g', frame left right g = Ok g' /\
    world g' = filter (fun c => Circle.active c = true)
                 [Circle.set_active (moved A (after_keys left right g)) false;
                  Circle.set_active B false;
                  Circle.newCircle (moved A (after_keys left right g)) B].
Proof.
  intros Hw HA HB Hcap Htouch.
  unfold frame. fold (after_keys left right g).
  set (g0 := after_keys left right g) in *.
  assert (Hw0 : world g0 = [A; B]) by exact Hw.
  destruct (for_bricks
              (Circle.CheckCollision_Paddle
                 (Circle.CheckWallCollision (Circle.MoveOneStep A)) (paddle g0))
              (bricks g0)) as [A' bricks'] eqn:Eb.
  assert (EA : moved A g0 = A') by (unfold moved; now rewrite Eb).
  rewrite EA in *.
  assert (V0 : visit 0 g0 =
               Ok (Build_Game [Circle.set_active A' false; Circle.set_active B false;
                               Circle.newCircle A' B]
                              (world_capacity g0) bricks' (paddle g0))).
  { unfold visit. rewrite Hw0. simpl lookup. cbv iota beta. rewrite HA, Eb. simpl insert.
    rewrite (merge_first_touching [A'; B] 0 1 A' B); try reflexivity; try assumption;
      [|lia|intros k o Hk Hne; lia].
    simpl insert. simpl app. simpl length.
    destruct (Nat.ltb_spec (world_capacity g0) 3) as [Hlt|_];
      [change (world_capacity g0) with (world_capacity g) in Hlt; lia|].
    reflexivity. }
  unfold movement_and_collision. rewrite Hw0. simpl for_world. rewrite V0.
  unfold visit. simpl.
  eexists. split; [reflexivity|]. simpl.
  now rewrite remove_inactive_filter.
Qed.

(** C1, as the program has it.  When the merge check runs for the active
    circle [A] at index [i], and [B] at index [j] is the first other circle
    of the vector that is active and that [A] touches, the check deactivates
    [A] and [B], appends exactly one circle, and changes nothing else.  The
    new circle is active and yellow; its centre is half the sum of the two
    centres, its radius the sum of the two radii, its speed half the sum of
    the two speeds.  So a turn of the main loop on a [world] of two active
    circles, the first of which still is active and touches the second when
    it has moved, leaves the circle that merges the two, and nothing else. *)
Theorem merge_with_first_touching (A B : Circle.t) :
  Circle.active A = true -> Circle.active B = true ->
  let M := Circle.Build 1.0f 1.0f 0.0f
             (Circle.radius A + Circle.radius B)%f32
             ((Circle.x A + Circle.x B) / F32.of_int 2)%f32
             ((Circle.y A + Circle.y B) / F32.of_int 2)%f32
             ((Circle.speedX A + Circle.speedX B) / F32.of_int 2)%f32
             ((Circle.speedY A + Circle.speedY B) / F32.of_int 2)%f32
             true in
  (forall (circles : list Circle.t) (i j : nat),
     circles !! i = Some A -> circles !! j = Some B -> i <> j ->
     Circle.touches A B = true ->
     (forall k o, (k < j)%nat -> k <> i -> circles !! k = Some o ->
        Circle.active o = true -> Circle.touches A o = false) ->
     let circles' := Circle.CheckCollision_circles i circles in
     circles' = <[j := Circle.set_active B false]>
                  (<[i := Circle.set_active A false]> circles) ++ [M] /\
     length circles' = S (length circles) /\
     circles' !! i = Some (Circle.set_active A false) /\
     circles' !! j = Some (Circle.set_active B false) /\
     circles' !! length circles = Some M /\
     (forall k, k <> i -> k <> j -> (k < length circles)%nat ->
        circles' !! k = circles !! k)) /\
  (forall (left right : bool) (g : Game) (A0 : Circle.t),
     world g = [A0; B] -> Circle.active A0 = true ->
     (3 <= world_capacity g)%nat ->
     moved A0 (after_keys left right g) = A ->
     Circle.touches A B = true ->
     exists g', frame left right g = Ok g' /\ world g' = [M]).
Proof.
  intros HactA HactB M. split.
  - intros circles i j HA HB Hij Htouch Hfirst circles'.
    assert (Hi : (i < length circles)%nat) by (eapply lookup_lt_Some; eauto).
    assert (Hj : (j < length circles)%nat) by (eapply lookup_lt_Some; eauto).
    assert (Heq : circles' =
      <[j := Circle.set_active B false]> (<[i := Circle.set_active A false]> circles) ++ [M]).
    { subst circles'. now apply merge_first_touching. }
    split; [exact Heq|]. rewrite Heq.
    repeat split.
    + rewrite length_app, !length_insert. simpl. lia.
    + rewrite lookup_app_l by (rewrite !length_insert; lia).
      rewrite list_lookup_insert_ne by auto.
      apply list_lookup_insert_eq. lia.
    + rewrite lookup_app_l by (rewrite !length_insert; lia).
      apply list_lookup_insert_eq. rewrite length_insert. lia.
    + rewrite lookup_app_r by (rewrite !length_insert; lia).
      rewrite !length_insert, Nat.sub_diag. reflexivity.
    + intros k Hki Hkj Hk.
      rewrite lookup_app_l by (rewrite !length_insert; lia).
      now rewrite !list_lookup_insert_ne by auto.
  - intros left right g A0 Hw HactA0 Hcap Hmoved Htouch.
    destruct (frame_of_two left right g A0 B Hw HactA0 HactB Hcap) as (g' & Hf & Hg');
      [now rewrite Hmoved|].
    exists g'. split; [exact Hf|]. rewrite Hg', Hmoved.
    rewrite filter_cons_False by (simpl; congruence).
    rewrite filter_cons_False by (simpl; congruence).
    now rewrite filter_cons_True by reflexivity.
Qed.

(** It applies to the first two of the three rising circles, when the
    first has moved. *)
Lemma merge_with_first_touching_witness :
  let A := Circle.MoveOneStep (rising (- 0.5f)%f32) in
  let B := rising (- F32.lit 49 100)%f32 in
  let C := rising (- F32.lit 48 100)%f32 in
  length (Circle.CheckCollision_circles 0 [A; B; C]) = 4%nat.
Proof.
  intros A B C.
  refine (proj1 (proj2 (proj1 (merge_with_first_touching A B _ _)
                          [A; B; C] 0%nat 1%nat _ _ _ _ _))).
  - reflexivity.
  - reflexivity.
  - reflexivity.
  - reflexivity.
  - lia.
  - vm_compute. reflexivity.
  - intros k o Hk Hne. lia.
Defined.

(** C1, as the specification has it, fails: of three circles that touch
    each other, the first two are merged, and the third is merged with the
    circle that this merge created.  When the turn is over one circle is
    left, and no circle with the radius of the first two together. *)
Lemma three_touching_circles :
  let A := rising (- 0.5f)%f32 in
  let B := rising (- F32.lit 49 100)%f32 in
  world three_rising !! 0%nat = Some A /\ world three_rising !! 1%nat = Some B /\
  Circle.active A = true /\ Circle.active B = true /\ Circle.touches A B = true /\
  exists g', frame false false three_rising = Ok g' /\
    length (world g') = 1%nat /\
    Forall (fun M => Circle.radius M <> (Circle.radius A + Circle.radius B)%f32) (world g').
Proof.
  repeat split.
  eexists. split; [vm_compute; reflexivity|].
  split; [reflexivity|].
  repeat constructor. vm_compute. discriminate.
Qed.

(** ** Lost and merged in one turn *)

(** C3 fails on the program.  [main] tests [circle.active] once, before
    the circle moves; the bottom wall check then clears the flag of the
    lower of the two falling circles, and the checks that follow still run
    for it: the merge check finds the higher circle, deactivates it and
    appends the merged circle.  When the turn is over the lost circle is
    back in [world] as part of an active circle. *)
Theorem lost_circle_is_merged :
  let lost := Circle.CheckWallCollision (Circle.MoveOneStep falling_low) in
  Circle.active falling_low = true /\ Circle.active falling_high = true /\
  Circle.active lost = false /\
  Circle.CheckCollision_Paddle lost paddle0 = lost /\
  exists g', frame false false lost_and_merged = Ok g' /\
    world g' = [Circle.newCircle lost falling_high] /\
    Forall (fun c => Circle.active c = true) (world g').
Proof.
  intros lost. repeat split.
  eexists. split; [vm_compute; reflexivity|].
  split; [vm_compute; reflexivity|].
  repeat constructor.
Qed.

(** ** Appending to [world] while walking it *)

(** C9 fails on the program.  [world] holds two circles and is full; the
    first circle moves and touches the second, and the [push_back] of the
    merged circle reallocates the vector during the first turn of the loop
    of [main], which goes on with its iterators into the old storage.  With
    room for one more circle the same walk ends, the two circles
    deactivated and the merged one appended. *)
Theorem merge_invalidates_the_walk :
  length (world two_meeting) = world_capacity two_meeting /\
  Circle.touches (Circle.MoveOneStep going_down) going_up = true /\
  visit 0 two_meeting = InvalidatedIterator /\
  movement_and_collision two_meeting = InvalidatedIterator /\
  exists g', movement_and_collision
               (Build_Game (world two_meeting) 3 bricks0 paddle0) = Ok g' /\
    map Circle.active (world g') = [false; false; true].
Proof.
  repeat split.
  eexists. split; vm_compute; reflexivity.
Qed.

(** ** The paddle check *)

Lemma fabs_fabs (a : F32.float) : F32.fabs (F32.fabs a) = F32.fabs a.
Proof. now destruct a. Qed.

Lemma fabs_not_negative (a : F32.float) : (F32.fabs a <? 0.0f)%f32 = false.
Proof. now destruct a. Qed.

Lemma fabs_positive (a : F32.float) :
  (F32.fabs a >? 0.0f)%f32 = negb (is_zero a || is_nan a).
Proof. now destruct a. Qed.

(** C2, as the program has it.  After a paddle check that found the circle
    on the paddle, the vertical speed is the absolute value of what it was:
    the magnitude is kept, the speed is never downward, and it is upward
    exactly when it was neither zero nor a NaN before. *)
Theorem paddle_hit_vertical_speed (c : Circle.t) (p : Paddle.t) :
  Circle.hits_paddle c p = true ->
  let c' := Circle.CheckCollision_Paddle c p in
  Circle.speedY c' = F32.fabs (Circle.speedY c) /\
  F32.fabs (Circle.speedY c') = F32.fabs (Circle.speedY c) /\
  (Circle.speedY c' <? 0.0f)%f32 = false /\
  (Circle.speedY c' >? 0.0f)%f32 = negb (is_zero (Circle.speedY c) || is_nan (Circle.speedY c)).
Proof.
  intros Hhit c'. subst c'. unfold Circle.CheckCollision_Paddle. rewrite Hhit.
  circle_fields.
  split; [reflexivity|].
  split; [apply fabs_fabs|].
  split; [apply fabs_not_negative|apply fabs_positive].
Qed.

(** A circle falling onto the paddle leaves it upward. *)
Lemma paddle_hit_vertical_speed_witness :
  let c := Circle.MoveOneStep (Circle.MoveOneStep going_down) in
  (Circle.speedY (Circle.CheckCollision_Paddle c paddle0) >? 0.0f)%f32 = true.
Proof.
  intros c.
  refine (eq_trans
    (proj2 (proj2 (proj2 (paddle_hit_vertical_speed c paddle0 _)))) _).
  - vm_compute. reflexivity.
  - reflexivity.
Defined.

(** C2, as the specification has it, fails: the circle that the merge of a
    rising and a falling circle creates has no vertical speed; it lies on
    the paddle, and the paddle check leaves it without vertical speed. *)
Lemma hovering_circle_stays :
  Circle.speedY hovering = 0.0f%f32 /\
  Circle.hits_paddle hovering paddle0 = true /\
  (Circle.speedY (Circle.CheckCollision_Paddle hovering paddle0) >? 0.0f)%f32 = false.
Proof. split; [|split]; vm_compute; reflexivity. Qed.




(** ** The paddle *)

Lemma move_fields (p : Paddle.t) (dx : F32.float) :
  Paddle.y (Paddle.move p dx) = Paddle.y p /\
  Paddle.width (Paddle.move p dx) = Paddle.width p /\
  Paddle.height (Paddle.move p dx) = Paddle.height p.
Proof.
  unfold Paddle.move.
  repeat match goal with |- context [if ?b then _ else _] => destruct b end;
    repeat split.
Qed.

Lemma moves_fields (dxs : list F32.float) (p : Paddle.t) :
  Paddle.y (moves dxs p) = Paddle.y p /\
  Paddle.width (moves dxs p) = Paddle.width p /\
  Paddle.height (moves dxs p) = Paddle.height p.
Proof.
  revert p. induction dxs as [|dx dxs IH]; intros p; [repeat split|].
  simpl. destruct (IH (Paddle.move p dx)) as (-> & -> & ->). apply move_fields.
Qed.

Lemma move_only_x (p : Paddle.t) (dx : F32.float) :
  Paddle.move p dx = Paddle.set_x p (Paddle.x (Paddle.move p dx)).
Proof.
  unfold Paddle.move.
  repeat match goal with |- context [if ?b then _ else _] => destruct b end;
    now destruct p.
Qed.

Lemma paddle_centres_closed :
  Forall (fun x => key_move x paddleSpeed ∈ paddle_centres /\
                   key_move x (- paddleSpeed)%f32 ∈ paddle_centres) paddle_centres.
Proof. apply (bool_decide_unpack _). vm_compute. exact I. Qed.

Lemma paddle_centres_in_range :
  Forall (fun x =>
            (F32.of_int (-1) + Paddle.width paddle0 / F32.of_int 2 <=? x)%f32 = true /\
            (x <=? F32.of_int 1 - Paddle.width paddle0 / F32.of_int 2)%f32 = true)
         paddle_centres.
Proof. apply (bool_decide_unpack _). vm_compute. exact I. Qed.

(** The paddle of the program is always at one of these centres, and
    nothing else of it changes. *)
Lemma keys_pressed_centres (keys : list (bool * bool)) :
  let p := keys_pressed keys paddle0 in
  p = Paddle.set_x paddle0 (Paddle.x p) /\ Paddle.x p ∈ paddle_centres.
Proof.
  induction keys as [|[left right] keys IH] using rev_ind.
  - split; [reflexivity|]. apply (bool_decide_unpack _). vm_compute. exact I.
  - cbv zeta in *. unfold keys_pressed in *. rewrite foldl_app. simpl.
    destruct IH as [Ep Hin]. set (p := foldl _ paddle0 keys) in *.
    assert (Hstep : forall q dx, q = Paddle.set_x paddle0 (Paddle.x q) ->
              Paddle.x q ∈ paddle_centres ->
              (dx = paddleSpeed \/ dx = (- paddleSpeed)%f32) ->
              Paddle.move q dx = Paddle.set_x paddle0 (Paddle.x (Paddle.move q dx)) /\
              Paddle.x (Paddle.move q dx) ∈ paddle_centres).
    { intros q dx Eq Hq Hdx.
      pose proof (proj1 (Forall_forall _ _) paddle_centres_closed _ Hq) as [Hr Hl].
      unfold key_move in Hr, Hl. rewrite <- Eq in Hr, Hl.
      split.
      - rewrite (move_only_x q dx) at 1. rewrite Eq at 1. reflexivity.
      - destruct Hdx as [-> | ->]; assumption. }
    unfold processInput_paddle.
    destruct left, right; auto.
    destruct (Hstep p (- paddleSpeed)%f32) as [E1 H1]; auto.
Qed.

Lemma paddle_centres_on_screen :
  forallb centre_on_screen paddle_centres = true.
Proof. vm_compute. reflexivity. Qed.

Lemma centre_on_screen_exact (x : F32.float) :
  centre_on_screen x = true ->
  let half := (Paddle.width paddle0 / F32.of_int 2)%f32 in
  exists v h one : Z,
    exact_value x = Some v /\
    exact_value (Paddle.width paddle0) = Some (2 * h) /\
    exact_value (F32.of_int 1) = Some one /\
    - (one - h) - 2 ^ 123 <= v <= one - h + 2 ^ 123 /\
    (- (one - h) <= v <= one - h \/
     x = (F32.of_int (-1) + half)%f32 \/ x = (F32.of_int 1 - half)%f32).
Proof.
  intros H. cbv zeta. unfold centre_on_screen in H. cbv zeta in H.
  destruct (exact_value x) as [v|]; [|discriminate].
  assert (Eh : exact_value (Paddle.width paddle0 / F32.of_int 2)%f32
               = Some (13421773 * 2 ^ 123)) by (vm_compute; reflexivity).
  assert (Ew : exact_value (Paddle.width paddle0) = Some (2 * (13421773 * 2 ^ 123)))
    by (vm_compute; reflexivity).
  rewrite Eh in H.
  destruct (exact_value (F32.of_int 1)) as [one|]; [|discriminate].
  apply andb_prop in H as [H Hin]. apply andb_prop in H as [Hlo Hhi].
  apply Z.leb_le in Hlo, Hhi.
  exists v, (13421773 * 2 ^ 123), one.
  split; [reflexivity|]. split; [exact Ew|]. split; [reflexivity|]. split; [split; assumption|].
  apply orb_prop in Hin as [Hin|Hin]; [apply orb_prop in Hin as [Hin|Hin]|].
  - left. apply andb_prop in Hin as [H1 H2]. apply Z.leb_le in H1, H2. split; assumption.
  - right. left. now apply bool_decide_eq_true in Hin.
  - right. right. now apply bool_decide_eq_true in Hin.
Qed.

(** C6, as the program has it.  After any calls of [move] and one more,
    the paddle is where it was vertically, and its centre is either
    [-1 + width / 2], or [1 - width / 2], both as the [float] expressions
    of the program, or the centre before the call plus [dx] with both
    edges, computed as the program computes them, not outside of the
    screen.  The paddle of the program, which the arrow keys move by
    [paddleSpeed] from the middle of the screen, has its centre between
    the [float] values of [-1 + width / 2] and [1 - width / 2] in every
    frame.  In exact values, [x], [h] and [one] being the centre, half of
    the width and 1 in units of 2^-149: the centre is within the interval
    from -1 + width/2 to 1 - width/2, or it is one of those two [float]
    values; it is never farther from the interval than 2^-26, which is
    2^123 units; and sixteen frames of an arrow key bring it to the one or
    the other of the two values, which are 2^-26 outside of the interval,
    the edge of the paddle then being 2^-26 outside of the screen. *)
Theorem paddle_stays_on_screen (p : Paddle.t) (dxs : list F32.float) (dx : F32.float) :
  let before := moves dxs p in
  let after := moves (dxs ++ [dx]) p in
  let half := (Paddle.width p / F32.of_int 2)%f32 in
  Paddle.y after = Paddle.y p /\
  (Paddle.x after = (F32.of_int (-1) + half)%f32 \/
   Paddle.x after = (F32.of_int 1 - half)%f32 \/
   (Paddle.x after = (Paddle.x before + dx)%f32 /\
    (Paddle.x after - half <? F32.of_int (-1))%f32 = false /\
    (Paddle.x after + half >? F32.of_int 1)%f32 = false)) /\
  (forall keys : list (bool * bool),
     let p' := keys_pressed keys paddle0 in
     let half' := (Paddle.width p' / F32.of_int 2)%f32 in
     Paddle.y p' = Paddle.y paddle0 /\
     (F32.of_int (-1) + half' <=? Paddle.x p')%f32 = true /\
     (Paddle.x p' <=? F32.of_int 1 - half')%f32 = true /\
     exists x h one : Z,
       exact_value (Paddle.x p') = Some x /\
       exact_value (Paddle.width p') = Some (2 * h) /\
       exact_value (F32.of_int 1) = Some one /\
       - (one - h) - 2 ^ 123 <= x <= one - h + 2 ^ 123 /\
       (- (one - h) <= x <= one - h \/
        Paddle.x p' = (F32.of_int (-1) + half')%f32 \/
        Paddle.x p' = (F32.of_int 1 - half')%f32)) /\
  (let at_right := keys_pressed (replicate 16 (false, true)) paddle0 in
   let at_left := keys_pressed (replicate 16 (true, false)) paddle0 in
   let half0 := (Paddle.width paddle0 / F32.of_int 2)%f32 in
   exists x h one : Z,
     Paddle.x at_right = (F32.of_int 1 - half0)%f32 /\
     Paddle.x at_left = (F32.of_int (-1) + half0)%f32 /\
     exact_value (Paddle.x at_right) = Some x /\
     exact_value (Paddle.x at_left) = Some (- x) /\
     exact_value (Paddle.width paddle0) = Some (2 * h) /\
     exact_value (F32.of_int 1) = Some one /\
     x = one - h + 2 ^ 123).
Proof.
  intros before after half. subst after.
  split; [apply moves_fields|]. split; [|split].
  - unfold moves. rewrite foldl_app. simpl. fold (moves dxs p). fold before.
    destruct (moves_fields dxs p) as (_ & Hw & _). fold before in Hw.
    subst half. rewrite <- Hw. clear Hw. generalize before. clear. intros p.
    unfold Paddle.move.
    cbn [Paddle.x Paddle.width Paddle.set_x].
    destruct (_ <? _)%f32 eqn:Eleft; cbn [Paddle.x Paddle.width Paddle.set_x].
    + destruct (_ >? _)%f32 eqn:Eright; cbn [Paddle.x Paddle.width Paddle.set_x]; auto.
    + destruct (_ >? _)%f32 eqn:Eright; cbn [Paddle.x Paddle.width Paddle.set_x]; auto.
  - intros keys p' half'. destruct (keys_pressed_centres keys) as [Ep Hin]. fold p' in Ep, Hin.
    pose proof (proj1 (Forall_forall _ _) paddle_centres_in_range _ Hin) as [Hlo Hhi].
    pose proof (proj1 (forallb_forall _ _) paddle_centres_on_screen _
                  (proj1 (list_elem_of_In _ _) Hin)) as Hex.
    apply centre_on_screen_exact in Hex. cbv zeta in Hex.
    subst half'. rewrite Ep. cbn [Paddle.y Paddle.width Paddle.x Paddle.set_x]. auto.
  - cbv zeta. exists (53687092 * 2 ^ 123), (13421773 * 2 ^ 123), (2 ^ 149).
    repeat split; vm_compute; reflexivity.
Qed.

(** C6, as the specification has it, fails by a rounding error: a paddle
    of width 0.5 at -0.75 is moved to the left by 2^-24; the centre becomes
    -0.75 - 2^-24, the left edge computed from it rounds to -1, which is not
    below -1, and the centre stays left of [-1 + width / 2]. *)
Lemma paddle_left_of_its_range :
  (Paddle.width paddle_at_left <=? F32.of_int 2)%f32 = true /\
  (Paddle.x paddle_at_left - Paddle.width paddle_at_left / F32.of_int 2)%f32
    = F32.of_int (-1) /\
  let after := Paddle.move paddle_at_left tiny_left in
  (Paddle.x after - Paddle.width after / F32.of_int 2)%f32 = F32.of_int (-1) /\
  (Paddle.x after <? F32.of_int (-1) + Paddle.width after / F32.of_int 2)%f32 = true.
Proof. repeat split. Qed.

(** ** Binary32 rounding and the bottom wall *)

Lemma fexp_eq e : fexp F32.prec F32.emax e = fexp32 e.
Proof. reflexivity. Qed.

Lemma digits2_pos_bounds (p : positive) :
  2 ^ (Zpos (digits2_pos p) - 1) <= Zpos p < 2 ^ Zpos (digits2_pos p).
Proof.
  induction p as [p IH|p IH|]; simpl digits2_pos.
  - rewrite Pos2Z.inj_succ, Z.pow_succ_r by lia.
    replace (Z.succ (Zpos (digits2_pos p)) - 1) with (Z.succ (Zpos (digits2_pos p) - 1)) by lia.
    rewrite Z.pow_succ_r by lia. lia.
  - rewrite Pos2Z.inj_succ, Z.pow_succ_r by lia.
    replace (Z.succ (Zpos (digits2_pos p)) - 1) with (Z.succ (Zpos (digits2_pos p) - 1)) by lia.
    rewrite Z.pow_succ_r by lia. lia.
  - simpl. lia.
Qed.

Lemma Zdigits2_bounds (m : Z) :
  0 < m -> 2 ^ (Zdigits2 m - 1) <= m < 2 ^ Zdigits2 m.
Proof. destruct m; try lia. intros _. apply digits2_pos_bounds. Qed.

Lemma Zdigits2_pos (m : Z) : 0 < m -> 0 < Zdigits2 m.
Proof. destruct m; simpl; lia. Qed.

Lemma Zdigits2_unique (m d : Z) :
  2 ^ (d - 1) <= m < 2 ^ d -> 0 < m -> Zdigits2 m = d.
Proof.
  intros [Hlo Hhi] Hm.
  pose proof (Zdigits2_bounds m Hm) as [Blo Bhi].
  pose proof (Zdigits2_pos m Hm) as Hd.
  destruct (Z.lt_trichotomy (Zdigits2 m) d) as [Hlt|[Heq|Hgt]]; [|exact Heq|].
  - assert (2 ^ Zdigits2 m <= 2 ^ (d - 1)) by (apply Z.pow_le_mono_r; lia). lia.
  - destruct (Z.le_gt_cases d 0) as [Hd0|Hd0].
    + assert (2 ^ d <= 2 ^ 0) by (apply Z.pow_le_mono_r_iff; lia || (destruct (Z.eq_dec d 0); subst; simpl; lia)).
      simpl in *. lia.
    + assert (2 ^ d <= 2 ^ (Zdigits2 m - 1)) by (apply Z.pow_le_mono_r; lia). lia.
Qed.

Lemma shr_1_m (mrs : shr_record) :
  0 <= shr_m mrs -> shr_m (shr_1 mrs) = shr_m mrs / 2 /\ 0 <= shr_m (shr_1 mrs).
Proof.
  destruct mrs as [m r s]. simpl. intros Hm.
  destruct m as [|p|p]; [simpl; split; reflexivity || lia | | lia].
  destruct p as [p|p|]; simpl shr_m.
  - split; [|lia]. change (Zpos p) with (Z.div2 (Zpos p~1)). apply Z.div2_div.
  - split; [|lia]. change (Zpos p) with (Z.div2 (Zpos p~0)). apply Z.div2_div.
  - split; [reflexivity|lia].
Qed.

Lemma iter_pos_shr_1_m (p : positive) (mrs : shr_record) :
  0 <= shr_m mrs ->
  shr_m (SpecFloat.iter_pos shr_1 p mrs) = shr_m mrs / 2 ^ Zpos p /\
  0 <= shr_m (SpecFloat.iter_pos shr_1 p mrs).
Proof.
  revert mrs. induction p as [p IH|p IH|]; intros mrs Hm; simpl SpecFloat.iter_pos.
  - destruct (shr_1_m mrs Hm) as [E1 P1].
    destruct (IH _ P1) as [E2 P2]. destruct (IH _ P2) as [E3 P3].
    split; [|exact P3]. rewrite E3, E2, E1.
    rewrite !Z.div_div by (try apply Z.pow_pos_nonneg; lia).
    f_equal. replace (Zpos p~1) with (1 + Zpos p + Zpos p) by lia.
    rewrite !Z.pow_add_r by lia. change (2 ^ 1) with 2. ring.
  - destruct (IH _ Hm) as [E2 P2]. destruct (IH _ P2) as [E3 P3].
    split; [|exact P3]. rewrite E3, E2.
    rewrite !Z.div_div by (try apply Z.pow_pos_nonneg; lia).
    f_equal. replace (Zpos p~0) with (Zpos p + Zpos p) by lia.
    rewrite !Z.pow_add_r by lia. reflexivity.
  - destruct (shr_1_m mrs Hm) as [E1 P1]. split; [|exact P1]. exact E1.
Qed.

Lemma shr_record_of_loc_m (m : Z) (l : location) : shr_m (shr_record_of_loc m l) = m.
Proof. destruct l as [|[]]; reflexivity. Qed.

(** One shift to the exponent [fexp]: the mantissa is divided, rounding
    down, by the power of two that the exponent gains. *)
Lemma shr_fexp_spec (m e : Z) (l : location) :
  0 <= m ->
  let e' := Z.max e (fexp32 (Zdigits2 m + e)) in
  snd (shr_fexp F32.prec F32.emax m e l) = e' /\
  shr_m (fst (shr_fexp F32.prec F32.emax m e l)) = m / 2 ^ (e' - e).
Proof.
  intros Hm e'. subst e'. unfold shr_fexp, shr. rewrite fexp_eq.
  destruct (fexp32 (Zdigits2 m + e) - e) as [|p|p] eqn:En; simpl fst; simpl snd.
  - rewrite shr_record_of_loc_m.
    replace (Z.max e (fexp32 (Zdigits2 m + e))) with e by lia.
    rewrite Z.sub_diag. simpl. now rewrite Z.div_1_r.
  - destruct (iter_pos_shr_1_m p (shr_record_of_loc m l)) as [E _];
      [rewrite shr_record_of_loc_m; lia|].
    rewrite E, shr_record_of_loc_m.
    replace (Z.max e (fexp32 (Zdigits2 m + e))) with (e + Zpos p) by lia.
    split; [reflexivity|]. f_equal. f_equal. lia.
  - rewrite shr_record_of_loc_m.
    replace (Z.max e (fexp32 (Zdigits2 m + e))) with e by lia.
    rewrite Z.sub_diag. simpl. now rewrite Z.div_1_r.
Qed.

Lemma round_nearest_even_bounds (m : Z) (l : location) :
  m <= round_nearest_even m l <= m + 1.
Proof. destruct l as [|[]]; simpl; try lia. destruct (Z.even m); lia. Qed.

(** The digits of a quotient by a power of two. *)
Lemma Zdigits2_div_pow2 (m k : Z) :
  0 < m -> 0 <= k < Zdigits2 m -> 
  0 < m / 2 ^ k /\ Zdigits2 (m / 2 ^ k) = Zdigits2 m - k.
Proof.
  intros Hm Hk. pose proof (Zdigits2_bounds m Hm) as [Blo Bhi].
  assert (H2k : 0 < 2 ^ k) by (apply Z.pow_pos_nonneg; lia).
  assert (Hlo : 2 ^ (Zdigits2 m - k - 1) <= m / 2 ^ k).
  { apply Z.div_le_lower_bound; [lia|].
    rewrite <- Z.pow_add_r by lia.
    replace (k + (Zdigits2 m - k - 1)) with (Zdigits2 m - 1) by lia. lia. }
  assert (Hhi : m / 2 ^ k < 2 ^ (Zdigits2 m - k)).
  { apply Z.div_lt_upper_bound; [lia|].
    rewrite <- Z.pow_add_r by lia.
    replace (k + (Zdigits2 m - k)) with (Zdigits2 m) by lia. lia. }
  assert (Hpos : 0 < m / 2 ^ k).
  { assert (0 < 2 ^ (Zdigits2 m - k - 1)) by (apply Z.pow_pos_nonneg; lia). lia. }
  split; [exact Hpos|]. apply Zdigits2_unique; [|exact Hpos]. split; lia.
Qed.

Lemma div_pow2_small (m k : Z) :
  0 < m -> Zdigits2 m <= k -> m / 2 ^ k = 0.
Proof.
  intros Hm Hk. pose proof (Zdigits2_bounds m Hm) as [Blo Bhi].
  pose proof (Zdigits2_pos m Hm).
  apply Z.div_small. split; [lia|].
  assert (2 ^ Zdigits2 m <= 2 ^ k) by (apply Z.pow_le_mono_r; lia). lia.
Qed.

Lemma ulps_le_mono (m m' e : Z) : -149 <= e -> m <= m' -> ulps m e <= ulps m' e.
Proof.
  intros He Hm. unfold ulps.
  apply Z.mul_le_mono_nonneg_r; [|exact Hm]. apply Z.pow_nonneg. lia.
Qed.

(** What the first shift leaves: nothing, at the least exponent, or a
    mantissa with the digits that its exponent asks for. *)
Lemma first_shift_canonical (mx ex : Z) :
  0 < mx -> -149 <= ex -> ex <= fexp32 (Zdigits2 mx + ex) ->
  forall e1 m1, e1 = fexp32 (Zdigits2 mx + ex) -> m1 = mx / 2 ^ (e1 - ex) ->
  (m1 = 0 /\ e1 = -149) \/ (0 < m1 /\ fexp32 (Zdigits2 m1 + e1) = e1).
Proof.
  intros Hm He Hle e1 m1 Ee1 Em1.
  destruct (Z.lt_ge_cases (e1 - ex) (Zdigits2 mx)) as [Hk|Hk].
  - right. destruct (Zdigits2_div_pow2 mx (e1 - ex)) as [Hpos Hd]; [lia|lia|].
    rewrite <- Em1 in Hpos, Hd. split; [exact Hpos|]. rewrite Hd.
    replace (Zdigits2 mx - (e1 - ex) + e1) with (Zdigits2 mx + ex) by lia.
    now symmetry.
  - left. split; [rewrite Em1; apply div_pow2_small; lia|].
    unfold fexp32 in *. lia.
Qed.

(** The digits after rounding: as many as the exponent asks for, or one
    more on a power of two. *)
Lemma rounded_digits (m1 m2 e1 : Z) :
  -149 <= e1 ->
  (m1 = 0 /\ e1 = -149) \/ (0 < m1 /\ fexp32 (Zdigits2 m1 + e1) = e1) ->
  m1 <= m2 <= m1 + 1 -> 0 < m2 ->
  fexp32 (Zdigits2 m2 + e1) = e1 \/
  (fexp32 (Zdigits2 m2 + e1) = e1 + 1 /\ m2 = 2 ^ (Zdigits2 m2 - 1) /\ 2 <= Zdigits2 m2).
Proof.
  intros He [[-> ->]|[Hm1 Hc]] Hm2 Hpos.
  - assert (m2 = 1) as -> by lia. left. reflexivity.
  - pose proof (Zdigits2_bounds m1 Hm1) as [Blo Bhi].
    pose proof (Zdigits2_pos m1 Hm1) as Hd1.
    destruct (Z.lt_ge_cases m2 (2 ^ Zdigits2 m1)) as [Hlt|Hge].
    + left. rewrite (Zdigits2_unique m2 (Zdigits2 m1)); [exact Hc|lia|lia].
    + assert (E : m2 = 2 ^ Zdigits2 m1) by lia.
      assert (D : Zdigits2 m2 = Zdigits2 m1 + 1).
      { apply Zdigits2_unique; [|lia]. rewrite E.
        replace (Zdigits2 m1 + 1 - 1) with (Zdigits2 m1) by lia.
        split; [lia|]. apply Z.pow_lt_mono_r; lia. }
      rewrite D. unfold fexp32 in *.
      destruct (Z.eq_dec (Z.max (Zdigits2 m1 + 1 + e1 - 24) (-149)) e1) as [Ee|Ee];
        [left; exact Ee|right].
      split; [lia|]. split; [|lia].
      rewrite E. f_equal. lia.
Qed.

(** The two shifts and the rounding between them. *)
Lemma binary_round_aux_spec (s : bool) (mx ex : Z) (lx : location) :
  0 < mx -> -149 <= ex -> ex <= fexp32 (Zdigits2 mx + ex) ->
  let e1 := fexp32 (Zdigits2 mx + ex) in
  let m1 := mx / 2 ^ (e1 - ex) in
  exists m3 e3,
    binary_round_aux F32.prec F32.emax s mx ex lx =
      match m3 with
      | Z0 => S754_zero s
      | Zpos m => if e3 <=? F32.emax - F32.prec then S754_finite s m e3
                  else S754_infinity s
      | Zneg _ => S754_nan
      end /\
    0 <= m3 /\ e1 <= e3 /\
    (0 < m3 -> fexp32 (Zdigits2 m3 + e3) = e3) /\
    ulps m1 e1 <= ulps m3 e3 <= ulps (m1 + 1) e1.
Proof.
  intros Hm He Hle. cbv zeta.
  set (e1 := fexp32 (Zdigits2 mx + ex)). set (m1 := mx / 2 ^ (e1 - ex)).
  pose proof (first_shift_canonical mx ex Hm He Hle e1 m1 eq_refl eq_refl) as Hc1.
  assert (He1 : -149 <= e1) by lia.
  assert (Hm1 : 0 <= m1) by (destruct Hc1 as [[-> _]|[? _]]; lia).
  unfold binary_round_aux.
  pose proof (shr_fexp_spec mx ex lx) as S1.
  destruct (shr_fexp F32.prec F32.emax mx ex lx) as [mrs' e'] eqn:E1.
  destruct S1 as [Se Sm]; [lia|]. simpl in Se, Sm.
  fold e1 in Se, Sm.
  replace (Z.max ex e1) with e1 in * by lia.
  fold m1 in Sm. subst e'. rewrite Sm.
  pose proof (round_nearest_even_bounds m1 (loc_of_shr_record mrs')) as Hr.
  set (m2 := round_nearest_even m1 (loc_of_shr_record mrs')) in *.
  pose proof (shr_fexp_spec m2 e1 loc_Exact) as S2.
  destruct (shr_fexp F32.prec F32.emax m2 e1 loc_Exact) as [mrs'' e''] eqn:E2.
  destruct S2 as [Se2 Sm2]; [lia|]. simpl in Se2, Sm2. rewrite Sm2.
  destruct (Z.eq_dec m2 0) as [Z2|Z2].
  - (* nothing is left *)
    exists 0, e1. rewrite Z2 in *. simpl Zdigits2 in *.
    replace (Z.max e1 (fexp32 (0 + e1))) with e1 in * by (unfold fexp32; lia).
    rewrite Z.sub_diag. simpl.
    split; [reflexivity|]. split; [lia|]. split; [lia|]. split; [lia|].
    unfold ulps. assert (0 <= 2 ^ (e1 + 149)) by (apply Z.pow_nonneg; lia).
    assert (m1 = 0) by lia. subst m1. nia.
  - assert (P2 : 0 < m2) by lia.
    destruct (rounded_digits m1 m2 e1 He1 Hc1 Hr P2) as [Hsame|(Hnext & Hpow & Hd2)].
    + (* the rounded mantissa fits *)
      exists m2, e1. rewrite Hsame in *.
      replace (Z.max e1 e1) with e1 in * by lia.
      rewrite Z.sub_diag. simpl (2 ^ 0). rewrite Z.div_1_r. subst e''.
      split; [reflexivity|]. split; [lia|]. split; [lia|]. split; [auto|].
      split; apply ulps_le_mono; lia.
    + (* the rounded mantissa is a power of two with one digit too many *)
      exists (m2 / 2 ^ 1), (e1 + 1). rewrite Hnext in *.
      replace (Z.max e1 (e1 + 1)) with (e1 + 1) in * by lia.
      replace (e1 + 1 - e1) with 1 by lia. subst e''.
      destruct (Zdigits2_div_pow2 m2 1) as [Hpos3 Hd3]; [lia|lia|].
      split; [reflexivity|]. split; [lia|]. split; [lia|].
      split.
      { intros _. rewrite Hd3.
        replace (Zdigits2 m2 - 1 + (e1 + 1)) with (Zdigits2 m2 + e1) by lia. exact Hnext. }
      assert (Ex : ulps (m2 / 2 ^ 1) (e1 + 1) = ulps m2 e1).
      { unfold ulps. rewrite Hpow at 1 2.
        replace (Zdigits2 m2 - 1) with (1 + (Zdigits2 m2 - 2)) by lia.
        rewrite Z.pow_add_r by lia.
        replace ((2 ^ 1 * 2 ^ (Zdigits2 m2 - 2)) / 2 ^ 1) with (2 ^ (Zdigits2 m2 - 2))
          by (symmetry; rewrite Z.mul_comm; apply Z.div_mul; simpl; lia).
        replace (e1 + 1 + 149) with (1 + (e1 + 149)) by lia.
        rewrite (Z.pow_add_r 2 1 (e1 + 149)) by lia. ring. }
      rewrite Ex. split; apply ulps_le_mono; lia.
Qed.

Lemma iter_xO (d m : positive) : Zpos (Pos.iter xO m d) = Zpos m * 2 ^ Zpos d.
Proof.
  induction d as [|d IH] using Pos.peano_ind.
  - simpl. lia.
  - rewrite Pos.iter_succ, Pos2Z.inj_xO, IH, Pos2Z.inj_succ, Z.pow_succ_r by lia. ring.
Qed.

(** Alignment to a lower exponent keeps the value. *)
Lemma shl_align_spec (m : positive) (e e' : Z) :
  -149 <= e' <= e ->
  snd (shl_align m e e') = e' /\ ulps (Zpos (fst (shl_align m e e'))) e' = ulps (Zpos m) e.
Proof.
  intros He. unfold shl_align.
  destruct (e' - e) as [|d|d] eqn:Ed; simpl fst; simpl snd.
  - assert (e' = e) as -> by lia. split; reflexivity.
  - exfalso. lia.
  - split; [reflexivity|]. rewrite iter_xO. unfold ulps.
    replace (e + 149) with (Zpos d + (e' + 149)) by lia.
    rewrite (Z.pow_add_r 2 (Zpos d) (e' + 149)) by lia. ring.
Qed.

Lemma Zdigits2_mul_pow2 (m k : Z) :
  0 < m -> 0 <= k -> Zdigits2 (m * 2 ^ k) = Zdigits2 m + k.
Proof.
  intros Hm Hk. pose proof (Zdigits2_bounds m Hm) as [Blo Bhi].
  pose proof (Zdigits2_pos m Hm) as Hd.
  assert (H2k : 0 < 2 ^ k) by (apply Z.pow_pos_nonneg; lia).
  apply Zdigits2_unique; [|nia].
  replace (Zdigits2 m + k - 1) with (Zdigits2 m - 1 + k) by lia.
  rewrite !Z.pow_add_r by lia. split; nia.
Qed.

(** A mantissa of at most 24 digits at a lower exponent is below a
    mantissa of 24 digits at a higher one. *)
Lemma small_below_large (ma ea m e : Z) :
  0 < ma -> Zdigits2 ma <= 24 -> -149 <= ea < e -> 2 ^ 23 <= m ->
  ulps ma ea < ulps m e.
Proof.
  intros Hma Hda He Hm. unfold ulps.
  pose proof (Zdigits2_bounds ma Hma) as [_ Bhi].
  assert (ma < 2 ^ 24).
  { assert (2 ^ Zdigits2 ma <= 2 ^ 24) by (apply Z.pow_le_mono_r; lia). lia. }
  assert (P : 0 < 2 ^ (ea + 149)) by (apply Z.pow_pos_nonneg; lia).
  assert (2 * 2 ^ (ea + 149) <= 2 ^ (e + 149)).
  { rewrite <- Z.pow_succ_r by lia. apply Z.pow_le_mono_r; lia. }
  change (2 ^ 24) with (2 * 2 ^ 23) in *. nia.
Qed.

(** Rounding down to the exponent of the sum does not go below a binary32
    number that the exact value is not below. *)
Lemma floor_keeps_canonical (ma ea mx ex e1 : Z) :
  0 < ma -> fexp32 (Zdigits2 ma + ea) = ea ->
  0 < mx -> -149 <= ex -> ex <= e1 -> e1 = fexp32 (Zdigits2 mx + ex) ->
  ulps ma ea <= ulps mx ex ->
  ulps ma ea <= ulps (mx / 2 ^ (e1 - ex)) e1.
Proof.
  intros Hma Hca Hmx Hex Hle He1 Hv.
  assert (Hea : -149 <= ea) by (unfold fexp32 in Hca; lia).
  assert (Hda : Zdigits2 ma <= 24) by (unfold fexp32 in Hca; lia).
  destruct (Z.le_gt_cases e1 ea) as [Hc|Hc].
  - unfold ulps in *.
    assert (P : 0 < 2 ^ (ex + 149)) by (apply Z.pow_pos_nonneg; lia).
    assert (K : 0 < 2 ^ (e1 - ex)) by (apply Z.pow_pos_nonneg; lia).
    replace (ea + 149) with ((ea - e1) + (e1 + 149)) by lia.
    rewrite Z.pow_add_r by lia. rewrite Z.mul_assoc.
    apply Z.mul_le_mono_nonneg_r; [apply Z.pow_nonneg; lia|].
    apply Z.div_le_lower_bound; [exact K|].
    replace (ea + 149) with ((ea - e1) + (e1 - ex) + (ex + 149)) in Hv by lia.
    rewrite !Z.pow_add_r in Hv by lia.
    assert (0 <= 2 ^ (ea - e1)) by (apply Z.pow_nonneg; lia). nia.
  - apply Z.lt_le_incl.
    assert (Hk : e1 - ex = Zdigits2 mx - 24) by (unfold fexp32 in He1; lia).
    destruct (Zdigits2_div_pow2 mx (e1 - ex)) as [Hpos Hd];
      [exact Hmx|pose proof (Zdigits2_pos mx Hmx); lia|].
    apply small_below_large; [exact Hma|exact Hda|lia|].
    pose proof (Zdigits2_bounds _ Hpos) as [Blo _].
    rewrite Hd in Blo. replace (Zdigits2 mx - (e1 - ex) - 1) with 23 in Blo by lia.
    exact Blo.
Qed.

Lemma binary_round_spec (s : bool) (m : positive) (e : Z) :
  -149 <= e ->
  exists m3 e3,
    binary_round F32.prec F32.emax s m e = rounded_as s m3 e3 /\
    0 <= m3 /\ -149 <= e3 /\
    (0 < m3 -> fexp32 (Zdigits2 m3 + e3) = e3) /\
    (forall ma ea, 0 < ma -> fexp32 (Zdigits2 ma + ea) = ea ->
       ulps ma ea <= ulps (Zpos m) e -> ulps ma ea <= ulps m3 e3).
Proof.
  intros He. unfold binary_round. rewrite fexp_eq.
  change (Zpos (digits2_pos m)) with (Zdigits2 (Zpos m)).
  set (f := fexp32 (Zdigits2 (Zpos m) + e)).
  assert (Hf : -149 <= f) by (subst f; unfold fexp32; lia).
  destruct (shl_align m e f) as [mz ez] eqn:Ea.
  assert (Hz : -149 <= ez /\ ez <= fexp32 (Zdigits2 (Zpos mz) + ez) /\
               ulps (Zpos mz) ez = ulps (Zpos m) e).
  { destruct (Z.le_gt_cases f e) as [Hfe|Hfe].
    - destruct (shl_align_spec m e f) as [S1 S2]; [lia|].
      rewrite Ea in S1, S2. simpl in S1, S2. subst ez.
      split; [lia|]. split; [|exact S2].
      assert (Em : Zpos mz = Zpos m * 2 ^ (e - f)).
      { unfold ulps in S2.
        replace (e + 149) with ((e - f) + (f + 149)) in S2 by lia.
        rewrite (Z.pow_add_r 2 (e - f) (f + 149)), Z.mul_assoc in S2 by lia.
        apply Z.mul_reg_r in S2; [exact S2|].
        assert (0 < 2 ^ (f + 149)) by (apply Z.pow_pos_nonneg; lia). lia. }
      rewrite Em, Zdigits2_mul_pow2 by lia.
      replace (Zdigits2 (Zpos m) + (e - f) + f) with (Zdigits2 (Zpos m) + e) by lia.
      fold f. lia.
    - unfold shl_align in Ea. destruct (f - e) eqn:Ed; [exfalso; lia| |exfalso; lia].
      injection Ea as <- <-. fold f. split; [lia|]. split; [lia|reflexivity]. }
  destruct Hz as (Hez & Hle & Hval).
  destruct (binary_round_aux_spec s (Zpos mz) ez loc_Exact) as (m3 & e3 & Er & P3 & He3 & Hc3 & Hlo & _);
    [lia|exact Hez|exact Hle|].
  exists m3, e3. split; [exact Er|]. split; [exact P3|].
  assert (-149 <= fexp32 (Zdigits2 (Zpos mz) + ez)) by (unfold fexp32; lia).
  split; [lia|]. split; [exact Hc3|].
  intros ma ea Hma Hca Hv.
  eapply Z.le_trans; [|exact Hlo].
  apply floor_keeps_canonical; try assumption; try reflexivity; lia.
Qed.

Lemma valid_finite (s : bool) (m : positive) (e : Z) :
  F32.valid (S754_finite s m e) = true <->
  fexp32 (Zdigits2 (Zpos m) + e) = e /\ e <= F32.emax - F32.prec.
Proof.
  unfold F32.valid, valid_binary, bounded, canonical_mantissa. rewrite fexp_eq.
  rewrite andb_true_iff, Z.eqb_eq, Z.leb_le. reflexivity.
Qed.

Lemma rounded_as_valid (s : bool) (m3 e3 : Z) :
  0 <= m3 -> (0 < m3 -> fexp32 (Zdigits2 m3 + e3) = e3) ->
  F32.valid (rounded_as s m3 e3) = true.
Proof.
  intros Hm Hc. unfold rounded_as. destruct m3 as [|m|m]; [reflexivity| |lia].
  destruct (Z.leb_spec e3 (F32.emax - F32.prec)); [|reflexivity].
  apply valid_finite. split; [apply Hc; lia|assumption].
Qed.

Lemma binary_normalize_valid (m e : Z) (sz : bool) :
  -149 <= e -> F32.valid (binary_normalize F32.prec F32.emax m e sz) = true.
Proof.
  intros He. destruct m as [|m|m]; simpl; [reflexivity| |].
  - destruct (binary_round_spec false m e He) as (m3 & e3 & -> & P & _ & C & _).
    now apply rounded_as_valid.
  - destruct (binary_round_spec true m e He) as (m3 & e3 & -> & P & _ & C & _).
    now apply rounded_as_valid.
Qed.

Lemma valid_finite_emin (s : bool) (m : positive) (e : Z) :
  F32.valid (S754_finite s m e) = true -> -149 <= e.
Proof. intros H. apply valid_finite in H as [H _]. unfold fexp32 in H. lia. Qed.

(** The difference of two binary32 numbers is a binary32 number. *)
Lemma sub_valid (a b : F32.float) :
  F32.valid a = true -> F32.valid b = true -> F32.valid (a - b)%f32 = true.
Proof.
  intros Ha Hb. unfold F32.sub, SFsub.
  destruct a as [sa|sa| |sa ma ea], b as [sb|sb| |sb mb eb];
    try reflexivity; try assumption;
    try (destruct sa, sb; reflexivity).
  - (* finite - finite *)
    apply binary_normalize_valid.
    apply valid_finite_emin in Ha, Hb. lia.
Qed.

Lemma canonical_lt (m1 m2 : positive) (e1 e2 : Z) :
  fexp32 (Zdigits2 (Zpos m1) + e1) = e1 -> fexp32 (Zdigits2 (Zpos m2) + e2) = e2 ->
  e1 < e2 -> ulps (Zpos m1) e1 < ulps (Zpos m2) e2.
Proof.
  intros C1 C2 He. unfold fexp32 in C1, C2.
  apply small_below_large; [lia|lia|lia|].
  pose proof (Zdigits2_bounds (Zpos m2)) as [Blo _]; [lia|].
  replace (Zdigits2 (Zpos m2) - 1) with 23 in Blo by lia. exact Blo.
Qed.

(** Order of two negative binary32 numbers: that of their magnitudes,
    reversed. *)
Lemma ltb_negative (m1 m2 : positive) (e1 e2 : Z) :
  fexp32 (Zdigits2 (Zpos m1) + e1) = e1 -> fexp32 (Zdigits2 (Zpos m2) + e2) = e2 ->
  (S754_finite true m1 e1 <? S754_finite true m2 e2)%f32 = true <->
  ulps (Zpos m2) e2 < ulps (Zpos m1) e1.
Proof.
  intros C1 C2. unfold F32.ltb, SFltb, SFcompare.
  destruct (Z.compare_spec e1 e2) as [->|Hlt|Hgt].
  - rewrite Pos.compare_cont_spec. simpl.
    assert (P : 0 < 2 ^ (e2 + 149)).
    { apply Z.pow_pos_nonneg; unfold fexp32 in C2; lia. }
    unfold ulps. destruct (Pos.compare_spec m1 m2) as [->|H|H]; simpl.
    + split; [discriminate|lia].
    + split; [discriminate|]. intros. assert (Zpos m1 < Zpos m2) by lia. nia.
    + split; [|reflexivity]. intros _. assert (Zpos m2 < Zpos m1) by lia. nia.
  - pose proof (canonical_lt m1 m2 e1 e2 C1 C2 Hlt). split; [discriminate|lia].
  - pose proof (canonical_lt m2 m1 e2 e1 C2 C1 Hgt). split; [intros _; lia|reflexivity].
Qed.

(** Taking a positive number from a negative one: the result is negative
    and not smaller in magnitude. *)
Lemma sub_negative_positive (my mr : positive) (ey er : Z) :
  F32.valid (S754_finite true my ey) = true ->
  F32.valid (S754_finite false mr er) = true ->
  negative_at_least (ulps (Zpos my) ey) (S754_finite true my ey - S754_finite false mr er)%f32.
Proof.
  intros Vy Vr.
  pose proof (valid_finite_emin _ _ _ Vy) as Hy.
  pose proof (valid_finite_emin _ _ _ Vr) as Hr.
  apply valid_finite in Vy as [Cy _].
  unfold F32.sub, SFsub. set (ez := Z.min ey er).
  destruct (shl_align_spec my ey ez) as [_ Ay]; [lia|].
  destruct (shl_align_spec mr er ez) as [_ Ar]; [lia|].
  set (my' := fst (shl_align my ey ez)) in *. set (mr' := fst (shl_align mr er ez)) in *.
  change (cond_Zopp true (Zpos my') - cond_Zopp false (Zpos mr')) with (Zneg (my' + mr')).
  simpl binary_normalize.
  destruct (binary_round_spec true (my' + mr') ez) as (m3 & e3 & -> & P3 & He3 & C3 & Hge);
    [lia|].
  assert (Hv : ulps (Zpos my) ey <= ulps m3 e3).
  { apply Hge; [lia|exact Cy|]. rewrite <- Ay. unfold ulps.
    assert (0 <= 2 ^ (ez + 149)) by (apply Z.pow_nonneg; lia).
    rewrite Pos2Z.inj_add. nia. }
  assert (Hpos : 0 < ulps (Zpos my) ey).
  { unfold ulps. apply Z.mul_pos_pos; [lia|]. apply Z.pow_pos_nonneg; lia. }
  destruct m3 as [|m|m]; [unfold ulps in Hv; lia| |lia].
  unfold rounded_as. destruct (Z.leb_spec e3 (F32.emax - F32.prec)) as [Hb|Hb].
  - right. exists m, e3. split; [reflexivity|]. split; [|exact Hv].
    apply valid_finite. split; [apply C3; lia|exact Hb].
  - left. reflexivity.
Qed.

(** The bottom wall.  A circle with a radius that is not negative, whose
    centre is below [-1 - radius], has its lower edge below [-1]. *)
Lemma below_the_screen (y r : F32.float) :
  F32.valid y = true -> F32.valid r = true -> (0.0f <=? r)%f32 = true ->
  (y <? F32.of_int (-1) - r)%f32 = true ->
  (y - r <? F32.of_int (-1))%f32 = true.
Proof.
  intros Vy Vr Hr Hlt.
  destruct r as [sr|sr| |sr mr er]; try discriminate.
  - (* radius 0 *)
    change (F32.of_int (-1) - S754_zero sr)%f32 with (F32.of_int (-1)) in Hlt.
    destruct y as [sy|sy| |sy my ey]; try discriminate; exact Hlt.
  - (* radius infinite *)
    destruct sr; [discriminate|].
    destruct y as [sy|[]| |[] my ey]; discriminate.
  - destruct sr; [discriminate|].
    pose proof (sub_negative_positive 8388608 mr (-23) er eq_refl Vr) as HB.
    change (S754_finite true 8388608 (-23)) with (F32.of_int (-1)) in HB.
    destruct y as [sy|sy| |sy my ey].
    + destruct HB as [HB|(m & e & HB & _)]; rewrite HB in Hlt; discriminate.
    + destruct sy; [reflexivity|].
      destruct HB as [HB|(m & e & HB & _)]; rewrite HB in Hlt; discriminate.
    + discriminate.
    + destruct sy;
        [|destruct HB as [HB|(m & e & HB & _)]; rewrite HB in Hlt; discriminate].
      destruct HB as [HB|(mB & eB & HB & VB & HvB)]; [rewrite HB in Hlt; discriminate|].
      rewrite HB in Hlt, VB.
      pose proof Vy as Cy. apply valid_finite in Cy as [Cy _].
      apply valid_finite in VB as [CB _].
      apply (ltb_negative my mB ey eB Cy CB) in Hlt.
      destruct (sub_negative_positive my mr ey er Vy Vr) as [-> |(mR & eR & -> & VR & HvR)];
        [reflexivity|].
      apply valid_finite in VR as [CR _].
      change (F32.of_int (-1)) with (S754_finite true 8388608 (-23)).
      apply (ltb_negative mR 8388608 eR (-23) CR eq_refl). lia.
Qed.

(** C5.  After the wall check of a circle whose radius is not negative, a
    centre below [-1 - radius] means that the circle is not active any more.
    And when the circle is not above the top of the screen, the bottom case
    does nothing but clear the flag: the vertical position and the vertical
    speed are what they were, neither clamped nor reflected. *)
Theorem bottom_wall_deactivates (c : Circle.t) :
  F32.valid (Circle.y c) = true -> F32.valid (Circle.radius c) = true ->
  (0.0f <=? Circle.radius c)%f32 = true ->
  let c' := Circle.CheckWallCollision c in
  ((Circle.y c' <? F32.of_int (-1) - Circle.radius c')%f32 = true ->
     Circle.active c' = false) /\
  ((Circle.y c + Circle.radius c >? F32.of_int 1)%f32 = false ->
   (Circle.y c - Circle.radius c <? F32.of_int (-1))%f32 = true ->
     Circle.active c' = false /\ Circle.y c' = Circle.y c /\
     Circle.speedY c' = Circle.speedY c).
Proof.
  destruct c as [cr cg cb r x y sx sy a]. cbn [Circle.y Circle.radius].
  intros Vy Vr Hr.
  assert (Vtop : F32.valid (F32.of_int 1 - r)%f32 = true) by (now apply sub_valid).
  unfold Circle.CheckWallCollision.
  circle_fields.
  destruct (x - r <? F32.of_int (-1))%f32;
  circle_fields;
  match goal with |- context [(?a + r >? F32.of_int 1)%f32] => destruct (a + r >? F32.of_int 1)%f32 end;
  circle_fields;
  destruct (y + r >? F32.of_int 1)%f32 eqn:Etop;
  circle_fields;
  match goal with |- context [(?a - r <? F32.of_int (-1))%f32] =>
    destruct (a - r <? F32.of_int (-1))%f32 eqn:Ebottom end;
  circle_fields;
  (split; [intros Hlow|intros Hnotop Hlost]);
  try discriminate; try (repeat split; reflexivity);
  match type of Hlow with
  | (?a <? _)%f32 = true =>
      rewrite (below_the_screen a r) in Ebottom by assumption; discriminate
  end.
Qed.

(** A circle far below the screen is deactivated. *)
Lemma bottom_wall_deactivates_witness :
  Circle.active (Circle.CheckWallCollision far_below) = false.
Proof.
  refine (proj1 (bottom_wall_deactivates far_below _ _ _) _).
  - reflexivity.
  - reflexivity.
  - reflexivity.
  - vm_compute. reflexivity.
Defined.

(** * Further properties of the code *)

(** ** The loop over the bricks *)

Lemma neg_neg (a : F32.float) : (- - a)%f32 = a.
Proof. destruct a as [s|s| |s m e]; simpl; now rewrite ?negb_involutive. Qed.

Lemma flipped_flipped (c : Circle.t) : flipped (flipped c) = c.
Proof. destruct c. unfold flipped. simpl. now rewrite neg_neg. Qed.

Lemma hits_brick_flipped (c : Circle.t) (brk : Brick.t) :
  Circle.hits_brick (flipped c) brk = Circle.hits_brick c brk.
Proof. reflexivity. Qed.

(** The circle after a brick check: reversed when the brick is struck. *)
Lemma CheckCollision_Brick_circle (c : Circle.t) (brk : Brick.t) :
  fst (Circle.CheckCollision_Brick c brk) = if strikes c brk then flipped c else c.
Proof.
  unfold Circle.CheckCollision_Brick, strikes.
  destruct (Brick.onoff brk); [|reflexivity].
  destruct (Circle.hits_brick c brk); [|reflexivity].
  now destruct (Brick.brick_type brk).
Qed.

(** The brick after a brick check depends on the circle through the box
    test only. *)
Lemma CheckCollision_Brick_brick (c c0 : Circle.t) (brk : Brick.t) :
  Circle.hits_brick c brk = Circle.hits_brick c0 brk ->
  snd (Circle.CheckCollision_Brick c brk) = snd (Circle.CheckCollision_Brick c0 brk).
Proof.
  intros H. unfold Circle.CheckCollision_Brick. rewrite H.
  destruct (Brick.onoff brk); [|reflexivity].
  destruct (Circle.hits_brick c0 brk); [|reflexivity].
  now destruct (Brick.brick_type brk).
Qed.

Lemma strikes_flipped (c : Circle.t) (brk : Brick.t) :
  strikes (flipped c) brk = strikes c brk.
Proof. reflexivity. Qed.

(** The loop over the bricks, by induction on them: the circle that a
    brick meets differs from the one that entered the loop in the sign of
    its vertical speed at most, which no box test reads. *)
Lemma for_bricks_walk (c : Circle.t) (bs : list Brick.t) :
  snd (for_bricks c bs) = map (fun b => snd (Circle.CheckCollision_Brick c b)) bs /\
  fst (for_bricks c bs) =
    (if Nat.even (length (filter (fun b => strikes c b = true) bs)) then c else flipped c).
Proof.
  revert c. induction bs as [|b bs IH]; intros c; [split; reflexivity|].
  simpl for_bricks.
  pose proof (CheckCollision_Brick_circle c b) as Hc.
  destruct (Circle.CheckCollision_Brick c b) as [c1 b1] eqn:E1. simpl in Hc.
  destruct (IH c1) as [IHb IHc].
  destruct (for_bricks c1 bs) as [c2 bs2]. simpl in IHb, IHc. simpl fst. simpl snd.
  assert (Hmap : map (fun b0 => snd (Circle.CheckCollision_Brick c1 b0)) bs =
                 map (fun b0 => snd (Circle.CheckCollision_Brick c b0)) bs).
  { apply map_ext. intros b0. apply CheckCollision_Brick_brick.
    rewrite Hc. now destruct (strikes c b). }
  assert (Hfil : filter (fun b0 => strikes c1 b0 = true) bs =
                 filter (fun b0 => strikes c b0 = true) bs).
  { apply list_filter_iff. intros b0. rewrite Hc. now destruct (strikes c b). }
  split.
  - simpl map. rewrite E1. simpl. now rewrite IHb, Hmap.
  - rewrite IHc, Hfil. clear IHc IHb Hmap Hfil E1.
    destruct (strikes c b) eqn:Es; subst c1.
    + rewrite filter_cons_True by assumption. simpl length.
      rewrite Nat.even_succ, <- Nat.negb_even.
      destruct (Nat.even _); simpl; [reflexivity|apply flipped_flipped].
    + rewrite filter_cons_False by congruence. reflexivity.
Qed.

Lemma for_bricks_length (c : Circle.t) (bs : list Brick.t) :
  length (snd (for_bricks c bs)) = length bs.
Proof. rewrite (proj1 (for_bricks_walk c bs)). apply length_map. Qed.

(** X1.  The loop over the bricks checks every brick against the circle
    where it is, whatever the bricks before did: each brick ends as a check
    of the circle alone leaves it, and the circle is changed in its vertical
    speed only, reversed once for every brick that is [ON] and under its
    box.  A circle over an even number of such bricks leaves the loop as it
    entered it, and all of them took the hit. *)
Theorem for_bricks_each_brick (c : Circle.t) (bs : list Brick.t) :
  let struck := filter (fun b => strikes c b = true) bs in
  snd (for_bricks c bs) = map (fun b => snd (Circle.CheckCollision_Brick c b)) bs /\
  fst (for_bricks c bs) = (if Nat.even (length struck) then c else flipped c) /\
  length (snd (for_bricks c bs)) = length bs.
Proof.
  cbv zeta. destruct (for_bricks_walk c bs) as [Hb Hc].
  repeat split; try assumption. apply for_bricks_length.
Qed.

(** ** Bricks never recover *)

Lemma brick_check_step (c : Circle.t) (b : Brick.t) :
  INT_MIN < Brick.hitPoints b <= INT_MAX ->
  let b' := snd (Circle.CheckCollision_Brick c b) in
  b' = b \/
  (Brick.onoff b = ON /\
   Brick.hitPoints b' = Brick.hitPoints b - 1 /\
   Brick.onoff b' = (if Brick.hitPoints b - 1 <=? 0 then OFF else ON)).
Proof.
  intros Hrange. cbv zeta.
  destruct (Brick.onoff b) eqn:Hon;
    [|left; unfold Circle.CheckCollision_Brick; now rewrite Hon].
  destruct (Circle.hits_brick c b) eqn:Hhit;
    [|left; unfold Circle.CheckCollision_Brick; now rewrite Hon, Hhit].
  destruct (Brick.brick_type b) eqn:Ht;
    [left; unfold Circle.CheckCollision_Brick; now rewrite Hon, Hhit, Ht|].
  right.
  destruct (CheckCollision_Brick_destructible c b Ht Hon Hhit Hrange) as (H1 & H2 & _).
  auto.
Qed.

Lemma collisions_cons (c : Circle.t) (cs : list Circle.t) (b : Brick.t) :
  collisions (c :: cs) b = collisions cs (snd (Circle.CheckCollision_Brick c b)).
Proof. reflexivity. Qed.

(** A brick that is [OFF] stays as it is. *)
Lemma collisions_off (cs : list Circle.t) (b : Brick.t) :
  Brick.onoff b = OFF -> collisions cs b = b.
Proof.
  intros Hoff. induction cs as [|c cs IH]; [reflexivity|].
  rewrite collisions_cons.
  replace (snd (Circle.CheckCollision_Brick c b)) with b; [exact IH|].
  unfold Circle.CheckCollision_Brick. now rewrite Hoff.
Qed.

Lemma collisions_geometry (cs : list Circle.t) (b : Brick.t) :
  let b' := collisions cs b in
  Brick.x b' = Brick.x b /\ Brick.y b' = Brick.y b /\
  Brick.width b' = Brick.width b /\ Brick.height b' = Brick.height b /\
  Brick.brick_type b' = Brick.brick_type b.
Proof.
  revert b. induction cs as [|c cs IH]; intros b; [cbv zeta; tauto|].
  cbv zeta. rewrite collisions_cons.
  destruct (IH (snd (Circle.CheckCollision_Brick c b))) as (-> & -> & -> & -> & ->).
  apply CheckCollision_Brick_geometry.
Qed.

(** The hit points under the checks of a list of circles. *)
Lemma collisions_hitPoints (brk : Brick.t) (cs : list Circle.t) :
  INT_MIN < Brick.hitPoints brk <= INT_MAX ->
  Brick.hitPoints brk - Z.of_nat (length cs) <= Brick.hitPoints (collisions cs brk)
    <= Brick.hitPoints brk.
Proof.
  revert brk. induction cs as [|c cs IH]; intros b Hrange; [simpl; lia|].
  rewrite collisions_cons.
  destruct (brick_check_step c b Hrange) as [->|(Hon & Hhp & Hoo)].
  - specialize (IH b Hrange). simpl length. lia.
  - destruct (Z.leb_spec (Brick.hitPoints b - 1) 0) as [Hle|Hgt].
    + rewrite collisions_off by assumption. simpl length. lia.
    + specialize (IH (snd (Circle.CheckCollision_Brick c b))).
      rewrite Hhp in IH. simpl length. unfold INT_MIN, INT_MAX in *. lia.
Qed.

(** X2.  Whatever circles are checked against a brick, in whatever number:
    its hit points never grow, and fall by one for each circle at most; a
    brick that is [OFF] stays [OFF], and nothing else of it changes either;
    a brick that was hit and still is [ON] has hit points left; and the
    brick stays where it is, of the size and of the type it has. *)
Theorem bricks_never_recover (brk : Brick.t) (cs : list Circle.t) :
  INT_MIN < Brick.hitPoints brk <= INT_MAX ->
  let brk' := collisions cs brk in
  Brick.hitPoints brk - Z.of_nat (length cs) <= Brick.hitPoints brk' <= Brick.hitPoints brk /\
  (Brick.onoff brk = OFF -> brk' = brk) /\
  (Brick.onoff brk' = ON -> brk' = brk \/ 0 < Brick.hitPoints brk') /\
  (Brick.x brk', Brick.y brk', Brick.width brk', Brick.height brk', Brick.brick_type brk') =
    (Brick.x brk, Brick.y brk, Brick.width brk, Brick.height brk, Brick.brick_type brk).
Proof.
  intros Hrange brk'. subst brk'.
  split; [|split; [apply collisions_off|split]].
  - apply collisions_hitPoints. exact Hrange.
  - revert brk Hrange. induction cs as [|c cs IH]; intros b Hrange Hon'; [now left|].
    rewrite collisions_cons in *.
    destruct (brick_check_step c b Hrange) as [E|(Hon & Hhp & Hoo)].
    + rewrite E in *. destruct (IH b Hrange Hon') as [E'|Hpos]; [|now right].
      left. exact E'.
    + right. destruct (Z.leb_spec (Brick.hitPoints b - 1) 0) as [Hle|Hgt].
      * rewrite collisions_off in Hon' by assumption. congruence.
      * destruct (IH (snd (Circle.CheckCollision_Brick c b))) as [E'|Hpos];
          [rewrite Hhp; unfold INT_MIN, INT_MAX in *; lia|exact Hon'| |exact Hpos].
        rewrite E', Hhp. lia.
  - destruct (collisions_geometry cs brk) as (-> & -> & -> & -> & ->). reflexivity.
Qed.

Lemma bricks_never_recover_witness :
  Brick.hitPoints (collisions [under_brick 0; under_brick 1] (brick_at 0 0)) <= 3.
Proof.
  refine (proj2 (proj1 (bricks_never_recover (brick_at 0 0) [under_brick 0; under_brick 1] _))).
  unfold INT_MIN, INT_MAX. simpl. lia.
Defined.

(** ** What the loop of [main] keeps *)

Lemma fabs_neg (a : F32.float) : F32.fabs (- a)%f32 = F32.fabs a.
Proof. now destruct a. Qed.

Lemma same_ball_refl (c : Circle.t) : same_ball c c.
Proof. repeat split. Qed.

Lemma same_ball_trans (c1 c2 c3 : Circle.t) :
  same_ball c1 c2 -> same_ball c2 c3 -> same_ball c1 c3.
Proof.
  intros (R1 & C1 & S1 & A1) (R2 & C2 & S2 & A2).
  repeat split; try congruence.
  intros Hin. assert (E : c2 = c1) by auto. subst c2. auto.
Qed.

Lemma same_ball_deactivated (c : Circle.t) : same_ball c (Circle.set_active c false).
Proof.
  repeat split. destruct c as [r g b rad x y sx sy a]. simpl. now intros ->.
Qed.

(** The stations of a circle before its merge check. *)
Lemma MoveOneStep_keeps (c : Circle.t) :
  let c' := Circle.MoveOneStep c in
  Circle.radius c' = Circle.radius c /\
  (Circle.red c', Circle.green c', Circle.blue c') =
    (Circle.red c, Circle.green c, Circle.blue c) /\
  Circle.speedX c' = Circle.speedX c /\ Circle.speedY c' = Circle.speedY c /\
  Circle.active c' = Circle.active c.
Proof. repeat split. Qed.

Lemma CheckWallCollision_keeps (c : Circle.t) :
  let c' := Circle.CheckWallCollision c in
  Circle.radius c' = Circle.radius c /\
  (Circle.red c', Circle.green c', Circle.blue c') =
    (Circle.red c, Circle.green c, Circle.blue c) /\
  F32.fabs (Circle.speedX c') = F32.fabs (Circle.speedX c) /\
  F32.fabs (Circle.speedY c') = F32.fabs (Circle.speedY c) /\
  (Circle.active c' = true -> Circle.active c = true).
Proof.
  unfold Circle.CheckWallCollision.
  repeat match goal with
         | |- context [if ?b then _ else _] => destruct b; circle_fields
         end;
    cbn; rewrite ?fabs_neg; repeat split; auto; discriminate.
Qed.

Lemma CheckCollision_Paddle_keeps (c : Circle.t) (p : Paddle.t) :
  let c' := Circle.CheckCollision_Paddle c p in
  Circle.radius c' = Circle.radius c /\
  (Circle.red c', Circle.green c', Circle.blue c') =
    (Circle.red c, Circle.green c, Circle.blue c) /\
  (Circle.hits_paddle c p = false -> Circle.speedX c' = Circle.speedX c) /\
  F32.fabs (Circle.speedY c') = F32.fabs (Circle.speedY c) /\
  Circle.active c' = Circle.active c.
Proof.
  unfold Circle.CheckCollision_Paddle.
  destruct (Circle.hits_paddle c p); cbn; rewrite ?fabs_fabs; repeat split; auto; discriminate.
Qed.

Lemma for_bricks_keeps (c : Circle.t) (bs : list Brick.t) :
  let c' := fst (for_bricks c bs) in
  Circle.radius c' = Circle.radius c /\
  (Circle.red c', Circle.green c', Circle.blue c') =
    (Circle.red c, Circle.green c, Circle.blue c) /\
  Circle.speedX c' = Circle.speedX c /\
  F32.fabs (Circle.speedY c') = F32.fabs (Circle.speedY c) /\
  Circle.active c' = Circle.active c.
Proof.
  cbv zeta. rewrite (proj2 (for_bricks_walk c bs)).
  destruct (Nat.even _); cbn; rewrite ?fabs_neg; repeat split.
Qed.

(** What each station keeps, for the stations of [moved c g] in turn. *)
Ltac stations c g :=
  unfold moved;
  let c1 := fresh "c1" in let c2 := fresh "c2" in let c3 := fresh "c3" in
  set (c1 := Circle.MoveOneStep c);
  set (c2 := Circle.CheckWallCollision c1);
  set (c3 := Circle.CheckCollision_Paddle c2 (paddle g));
  let R1 := fresh "R1" in let C1 := fresh "C1" in let X1 := fresh "X1" in
  let Y1 := fresh "Y1" in let A1 := fresh "A1" in
  destruct (MoveOneStep_keeps c) as (R1 & C1 & X1 & Y1 & A1);
  fold c1 in R1, C1, X1, Y1, A1;
  let R2 := fresh "R2" in let C2 := fresh "C2" in let X2 := fresh "X2" in
  let Y2 := fresh "Y2" in let A2 := fresh "A2" in
  destruct (CheckWallCollision_keeps c1) as (R2 & C2 & X2 & Y2 & A2);
  fold c2 in R2, C2, X2, Y2, A2;
  let R3 := fresh "R3" in let C3 := fresh "C3" in let X3 := fresh "X3" in
  let Y3 := fresh "Y3" in let A3 := fresh "A3" in
  destruct (CheckCollision_Paddle_keeps c2 (paddle g)) as (R3 & C3 & X3 & Y3 & A3);
  fold c3 in R3, C3, X3, Y3, A3;
  let R4 := fresh "R4" in let C4 := fresh "C4" in let X4 := fresh "X4" in
  let Y4 := fresh "Y4" in let A4 := fresh "A4" in
  destruct (for_bricks_keeps c3 (bricks g)) as (R4 & C4 & X4 & Y4 & A4).

Lemma moved_same_ball (c : Circle.t) (g : Game) :
  Circle.active c = true -> same_ball c (moved c g).
Proof.
  intros Hact. stations c g. repeat split; congruence.
Qed.

(** X3.  On its way to the merge check a circle keeps its radius and its
    colour, and the magnitude of its vertical speed; it keeps the magnitude
    of its horizontal speed as well unless it is on the paddle; and it is
    not activated. *)
Theorem bounces_keep_the_speed (c : Circle.t) (g : Game) :
  let c' := moved c g in
  Circle.radius c' = Circle.radius c /\
  (Circle.red c', Circle.green c', Circle.blue c') =
    (Circle.red c, Circle.green c, Circle.blue c) /\
  F32.fabs (Circle.speedY c') = F32.fabs (Circle.speedY c) /\
  (Circle.hits_paddle (Circle.CheckWallCollision (Circle.MoveOneStep c)) (paddle g) = false ->
     F32.fabs (Circle.speedX c') = F32.fabs (Circle.speedX c)) /\
  (Circle.active c' = true -> Circle.active c = true).
Proof.
  cbv zeta. stations c g.
  repeat split; try congruence.
  - intros Hno. rewrite X4, (X3 Hno), X2. congruence.
  - intros Hact. rewrite A4, A3 in Hact. rewrite <- A1. auto.
Qed.

(** What the merge check does to the circles that the vector holds. *)
Lemma merge_at_lookup (self k : nat) (w w' : list Circle.t) (j : nat) (c : Circle.t) :
  Circle.merge_at self k w = Some w' -> w !! j = Some c ->
  exists c', w' !! j = Some c' /\ (c' = c \/ c' = Circle.set_active c false).
Proof.
  unfold Circle.merge_at. intros H Hj.
  destruct (w !! self) as [this|] eqn:Hself; [|discriminate].
  destruct (w !! k) as [other|] eqn:Hk; [|discriminate].
  destruct (negb (k =? self)%nat && Circle.active other); [|discriminate].
  destruct (Circle.touches this other); [|discriminate].
  injection H as <-.
  assert (Hlt : (j < length w)%nat) by (eapply lookup_lt_Some; eauto).
  rewrite lookup_app_l by (rewrite !length_alter; exact Hlt).
  destruct (Nat.eq_dec k j) as [Ekj|Nkj], (Nat.eq_dec self j) as [Esj|Nsj].
  - subst k self. rewrite list_lookup_alter_eq, list_lookup_alter_eq, Hj. simpl. eauto.
  - subst k. rewrite list_lookup_alter_eq, list_lookup_alter_ne, Hj by auto. simpl. eauto.
  - subst self. rewrite list_lookup_alter_ne, list_lookup_alter_eq, Hj by auto. simpl. eauto.
  - rewrite !list_lookup_alter_ne, Hj by auto. eauto.
Qed.

Lemma merge_from_lookup (self k n : nat) (w : list Circle.t) (j : nat) (c : Circle.t) :
  w !! j = Some c ->
  exists c', Circle.merge_from self k n w !! j = Some c' /\
             (c' = c \/ c' = Circle.set_active c false).
Proof.
  intros Hj. revert k. induction n as [|n IH]; intros k; simpl; [eauto|].
  destruct (Circle.merge_at self k w) as [w'|] eqn:E; [|apply IH].
  eapply merge_at_lookup; eauto.
Qed.

Lemma count_active_cons (c : Circle.t) (w : list Circle.t) :
  count_active (c :: w) = ((if Circle.active c then 1 else 0) + count_active w)%nat.
Proof.
  unfold count_active. destruct (Circle.active c) eqn:E.
  - now rewrite filter_cons_True.
  - rewrite filter_cons_False by congruence. reflexivity.
Qed.

Lemma count_active_app (w1 w2 : list Circle.t) :
  count_active (w1 ++ w2) = (count_active w1 + count_active w2)%nat.
Proof. unfold count_active. now rewrite filter_app, length_app. Qed.

Lemma count_active_le_length (w : list Circle.t) : (count_active w <= length w)%nat.
Proof. apply length_filter. Qed.

Lemma count_active_insert (w : list Circle.t) (i : nat) (c c' : Circle.t) :
  w !! i = Some c -> Circle.active c = true ->
  (count_active (<[i := c']> w) <= count_active w)%nat.
Proof.
  revert i. induction w as [|a w IH]; intros i Hi Hact; [discriminate|].
  destruct i as [|i].
  - injection Hi as ->. change (<[0%nat := c']> (c :: w)) with (c' :: w).
    rewrite !count_active_cons, Hact. destruct (Circle.active c'); lia.
  - change (<[S i := c']> (a :: w)) with (a :: <[i := c']> w).
    rewrite !count_active_cons. specialize (IH i Hi Hact). lia.
Qed.

Lemma count_active_deactivate (w : list Circle.t) (k : nat) :
  (count_active (alter (fun c => Circle.set_active c false) k w) <= count_active w)%nat.
Proof.
  revert k. induction w as [|a w IH]; intros k; [reflexivity|].
  destruct k as [|k].
  - change (alter (fun c => Circle.set_active c false) 0%nat (a :: w))
      with (Circle.set_active a false :: w).
    rewrite !count_active_cons. simpl Circle.active. cbv iota.
    destruct (Circle.active a); lia.
  - change (alter (fun c => Circle.set_active c false) (S k) (a :: w))
      with (a :: alter (fun c => Circle.set_active c false) k w).
    rewrite !count_active_cons. specialize (IH k). lia.
Qed.

Lemma count_active_deactivate_active (w : list Circle.t) (k : nat) (o : Circle.t) :
  w !! k = Some o -> Circle.active o = true ->
  S (count_active (alter (fun c => Circle.set_active c false) k w)) = count_active w.
Proof.
  revert k. induction w as [|a w IH]; intros k Hk Hact; [discriminate|].
  destruct k as [|k].
  - injection Hk as ->.
    change (alter (fun c => Circle.set_active c false) 0%nat (o :: w))
      with (Circle.set_active o false :: w).
    rewrite !count_active_cons, Hact. simpl Circle.active. cbv iota. lia.
  - change (alter (fun c => Circle.set_active c false) (S k) (a :: w))
      with (a :: alter (fun c => Circle.set_active c false) k w).
    rewrite !count_active_cons. specialize (IH k Hk Hact). lia.
Qed.

(** A merge takes an active circle away for the one that it adds. *)
Lemma merge_at_count (self k : nat) (w w' : list Circle.t) :
  Circle.merge_at self k w = Some w' -> (count_active w' <= count_active w)%nat.
Proof.
  unfold Circle.merge_at. intros H.
  destruct (w !! self) as [this|]; [|discriminate].
  destruct (w !! k) as [other|] eqn:Hk; [|discriminate].
  destruct (Nat.eqb_spec k self) as [->|Hne]; [discriminate|]. simpl in H.
  destruct (Circle.active other) eqn:Hact; [|discriminate].
  destruct (Circle.touches this other); [|discriminate].
  injection H as <-.
  rewrite count_active_app. change (count_active [Circle.newCircle this other]) with 1%nat.
  pose proof (count_active_deactivate w self) as H1.
  pose proof (count_active_deactivate_active
                (alter (fun c => Circle.set_active c false) self w) k other) as H2.
  rewrite list_lookup_alter_ne in H2 by auto.
  specialize (H2 Hk Hact). lia.
Qed.

Lemma merge_from_count (self k n : nat) (w : list Circle.t) :
  (count_active (Circle.merge_from self k n w) <= count_active w)%nat.
Proof.
  revert k. induction n as [|n IH]; intros k; simpl; [reflexivity|].
  destruct (Circle.merge_at self k w) as [w'|] eqn:E; [|apply IH].
  eapply merge_at_count; eauto.
Qed.

(** One turn of the loop of [main]. *)
Lemma visit_keeps (i : nat) (g g' : Game) :
  visit i g = Ok g' ->
  paddle g' = paddle g /\ length (bricks g') = length (bricks g) /\
  (count_active (world g') <= count_active (world g))%nat /\
  (forall j c, world g !! j = Some c ->
     exists c', world g' !! j = Some c' /\ same_ball c c').
Proof.
  unfold visit.
  destruct (world g !! i) as [circle|] eqn:Hi;
    [|intros [= <-]; repeat split; eauto using same_ball_refl].
  destruct (Circle.active circle) eqn:Hact;
    [|intros [= <-]; repeat split; eauto using same_ball_refl].
  pose proof (moved_same_ball circle g Hact) as Hsame. unfold moved in Hsame.
  pose proof (for_bricks_length
                (Circle.CheckCollision_Paddle
                   (Circle.CheckWallCollision (Circle.MoveOneStep circle)) (paddle g))
                (bricks g)) as Hlen.
  destruct (for_bricks _ (bricks g)) as [circle' bricks'] eqn:Eb.
  simpl in Hsame, Hlen.
  destruct (_ && _); [discriminate|]. intros [= <-]. simpl.
  split; [reflexivity|]. split; [exact Hlen|]. split.
  - etransitivity; [apply merge_from_count|].
    eapply count_active_insert; eauto.
  - intros j c Hj. unfold Circle.CheckCollision_circles.
    destruct (decide (i = j)) as [->|Hne].
    + assert (c = circle) by congruence. subst c.
      destruct (merge_from_lookup j 0 (length (<[j:=circle']> (world g)))
                  (<[j:=circle']> (world g)) j circle') as (c' & Hc' & Hor).
      { apply list_lookup_insert_eq. eapply lookup_lt_Some; eauto. }
      exists c'. split; [exact Hc'|].
      destruct Hor as [->| ->]; [exact Hsame|].
      eapply same_ball_trans; [exact Hsame|apply same_ball_deactivated].
    + destruct (merge_from_lookup i 0 (length (<[i:=circle']> (world g)))
                  (<[i:=circle']> (world g)) j c) as (c' & Hc' & Hor).
      { now rewrite list_lookup_insert_ne. }
      exists c'. split; [exact Hc'|].
      destruct Hor as [->| ->]; [apply same_ball_refl|apply same_ball_deactivated].
Qed.

Lemma for_world_keeps (n i : nat) (g g' : Game) :
  for_world i n g = Ok g' ->
  paddle g' = paddle g /\ length (bricks g') = length (bricks g) /\
  (count_active (world g') <= count_active (world g))%nat /\
  (forall j c, world g !! j = Some c ->
     exists c', world g' !! j = Some c' /\ same_ball c c').
Proof.
  revert i g. induction n as [|n IH]; intros i g; simpl.
  - intros [= <-]. repeat split; eauto using same_ball_refl.
  - destruct (visit i g) as [g1|] eqn:E1; [|discriminate]. intros H.
    destruct (visit_keeps i g g1 E1) as (P1 & B1 & C1 & W1).
    destruct (IH (S i) g1 H) as (P2 & B2 & C2 & W2).
    repeat split; try congruence; [lia|].
    intros j c Hj. destruct (W1 j c Hj) as (c1 & Hc1 & S1).
    destruct (W2 j c1 Hc1) as (c2 & Hc2 & S2).
    exists c2. split; [exact Hc2|]. eapply same_ball_trans; eauto.
Qed.

(** X4.  The movement and collision detection of one frame, when it ends:
    the paddle is where it was and no brick was added or removed; every
    circle of [world] is still at its index, with its radius, its colour
    and the magnitude of its vertical speed, and a circle that was not
    active is not changed at all; what merges add comes behind; and the
    active circles are not more than before. *)
Theorem movement_and_collision_keeps (g g' : Game) :
  movement_and_collision g = Ok g' ->
  paddle g' = paddle g /\ length (bricks g') = length (bricks g) /\
  world_capacity g' = world_capacity g /\
  (length (world g) <= length (world g'))%nat /\
  (count_active (world g') <= count_active (world g))%nat /\
  (forall j c, world g !! j = Some c ->
     exists c', world g' !! j = Some c' /\ same_ball c c').
Proof.
  unfold movement_and_collision. intros H.
  destruct (for_world_keeps _ _ _ _ H) as (P & B & C & W).
  assert (Hcap : forall n i g0 g1, for_world i n g0 = Ok g1 ->
            world_capacity g1 = world_capacity g0 /\
            (length (world g0) <= length (world g1))%nat).
  { clear. induction n as [|n IH]; intros i g0 g1; simpl.
    - intros [= <-]. split; reflexivity.
    - destruct (visit i g0) as [g2|] eqn:E; [|discriminate]. intros H.
      apply visit_length in E as [El Ec]. destruct (IH _ _ _ H) as [Hc Hl].
      split; [congruence|lia]. }
  destruct (Hcap _ _ _ _ H) as [Hc Hl].
  repeat split; assumption.
Qed.

Lemma movement_and_collision_keeps_witness :
  exists g', movement_and_collision lost_and_merged = Ok g' /\
             (count_active (world g') <= count_active (world lost_and_merged))%nat.
Proof.
  destruct (movement_and_collision lost_and_merged) as [g'|] eqn:E.
  - exists g'. split; [reflexivity|].
    exact (proj1 (proj2 (proj2 (proj2 (proj2 (movement_and_collision_keeps _ _ E)))))).
  - exfalso. vm_compute in E. discriminate.
Defined.

(** ** When the merge check does nothing *)

Lemma merge_from_none (self : nat) (w : list Circle.t) (n k : nat) :
  (forall j, (k <= j < k + n)%nat -> Circle.merge_at self j w = None) ->
  Circle.merge_from self k n w = w.
Proof.
  revert k. induction n as [|n IH]; intros k H; simpl; [reflexivity|].
  rewrite H by lia. apply IH. intros j Hj. apply H. lia.
Qed.

Lemma merge_from_unchanged (self : nat) (w : list Circle.t) (n k : nat) :
  Circle.merge_from self k n w = w ->
  forall j, (k <= j < k + n)%nat -> Circle.merge_at self j w = None.
Proof.
  revert k. induction n as [|n IH]; intros k H j Hj; [lia|]. simpl in H.
  destruct (Circle.merge_at self k w) as [w'|] eqn:E.
  - apply merge_at_length in E. rewrite H in E. lia.
  - destruct (decide (j = k)) as [->|Hne]; [exact E|]. apply (IH (S k)); [exact H|lia].
Qed.

Lemma merge_from_dichotomy (self k n : nat) (w : list Circle.t) :
  Circle.merge_from self k n w = w \/
  length (Circle.merge_from self k n w) = S (length w).
Proof.
  revert k. induction n as [|n IH]; intros k; simpl; [now left|].
  destruct (Circle.merge_at self k w) as [w'|] eqn:E; [|apply IH].
  right. eauto using merge_at_length.
Qed.

(** A circle is not merged with itself. *)
Lemma CheckCollision_circles_alone (c : Circle.t) :
  Circle.CheckCollision_circles 0 [c] = [c].
Proof. reflexivity. Qed.

(** X5.  The merge check leaves the vector as it is exactly when no other
    active circle touches the circle that it runs for: then nothing is
    deactivated and nothing is appended, and otherwise the vector grows.  A
    circle is never merged with itself. *)
Theorem merge_check_needs_a_touch (w : list Circle.t) (i : nat) (this : Circle.t) :
  w !! i = Some this ->
  (Circle.CheckCollision_circles i w = w <->
   forall k other, k <> i -> w !! k = Some other ->
     Circle.active other = true -> Circle.touches this other = false) /\
  (Circle.CheckCollision_circles i w <> w ->
     length (Circle.CheckCollision_circles i w) = S (length w)) /\
  Circle.CheckCollision_circles 0 [this] = [this].
Proof.
  intros Hi. unfold Circle.CheckCollision_circles. split; [split|split].
  - intros H k other Hk Hlook Hact.
    assert (Hlt : (k < length w)%nat) by (eapply lookup_lt_Some; eauto).
    pose proof (merge_from_unchanged i w (length w) 0 H k ltac:(lia)) as Hnone.
    unfold Circle.merge_at in Hnone. rewrite Hi, Hlook, Hact in Hnone.
    destruct (Nat.eqb_spec k i) as [->|_]; [congruence|]. simpl in Hnone.
    now destruct (Circle.touches this other).
  - intros H. apply merge_from_none. intros j Hj.
    unfold Circle.merge_at. rewrite Hi.
    destruct (w !! j) as [other|] eqn:Hlook; [|reflexivity].
    destruct (Nat.eqb_spec j i) as [->|Hne]; [reflexivity|]. simpl.
    destruct (Circle.active other) eqn:Hact; [|reflexivity].
    now rewrite (H j other).
  - intros Hne. destruct (merge_from_dichotomy i 0 (length w) w) as [E|E]; [|exact E].
    now destruct Hne.
  - apply CheckCollision_circles_alone.
Qed.

Lemma merge_check_needs_a_touch_witness :
  Circle.CheckCollision_circles 0 [rising (- 0.5f)%f32; rising 0.5f] =
  [rising (- 0.5f)%f32; rising 0.5f].
Proof.
  refine (proj2 (proj1 (merge_check_needs_a_touch
                          [rising (- 0.5f)%f32; rising 0.5f] 0 _ eq_refl)) _).
  intros k other Hk Hlook Hact.
  destruct k as [|[|k]]; [congruence| |discriminate].
  injection Hlook as <-. vm_compute. reflexivity.
Defined.

(** ** The order of two circles in a merge *)

Lemma add_comm (a b : F32.float) : (a + b)%f32 = (b + a)%f32.
Proof.
  unfold F32.add, SFadd.
  destruct a as [sa|sa| |sa ma ea], b as [sb|sb| |sb mb eb]; try reflexivity;
    try (destruct sa, sb; reflexivity).
  rewrite (Z.min_comm ea eb), Z.add_comm. reflexivity.
Qed.

Lemma binary_round_aux_sign (s : bool) (m e : Z) (l : location) :
  binary_round_aux F32.prec F32.emax (negb s) m e l =
  SFopp (binary_round_aux F32.prec F32.emax s m e l).
Proof.
  unfold binary_round_aux.
  destruct (shr_fexp F32.prec F32.emax m e l) as [mrs e1].
  destruct (shr_fexp F32.prec F32.emax _ e1 loc_Exact) as [mrs2 e2].
  destruct (shr_m mrs2); [reflexivity| |reflexivity].
  now destruct (e2 <=? F32.emax - F32.prec).
Qed.

Lemma binary_normalize_opp (m e : Z) :
  m <> 0 ->
  binary_normalize F32.prec F32.emax (- m) e false =
  SFopp (binary_normalize F32.prec F32.emax m e false).
Proof.
  intros Hm. destruct m as [|p|p]; [congruence| |]; simpl; unfold binary_round;
    destruct (shl_align p e _) as [mz ez].
  - apply (binary_round_aux_sign false).
  - apply (binary_round_aux_sign true).
Qed.

Lemma mul_opp_opp (a : F32.float) : (SFopp a * SFopp a)%f32 = (a * a)%f32.
Proof. destruct a as [s|s| |s m e]; try reflexivity; simpl; now destruct s. Qed.

(** The square of a difference does not depend on the order. *)
Lemma square_of_difference (a b : F32.float) :
  ((a - b) * (a - b))%f32 = ((b - a) * (b - a))%f32.
Proof.
  destruct a as [sa|sa| |sa ma ea], b as [sb|sb| |sb mb eb]; try reflexivity;
    try (destruct sa, sb; reflexivity).
  unfold F32.sub, SFsub. rewrite (Z.min_comm eb ea).
  set (ez := Z.min ea eb).
  set (A := cond_Zopp sa (Zpos (fst (shl_align ma ea ez)))).
  set (B := cond_Zopp sb (Zpos (fst (shl_align mb eb ez)))).
  destruct (Z.eq_dec (A - B) 0) as [E|E].
  - replace (B - A) with 0 by lia. now rewrite E.
  - replace (B - A) with (- (A - B)) by lia.
    rewrite binary_normalize_opp by assumption. symmetry. apply mul_opp_opp.
Qed.

(** X6.  It does not matter which of two circles the merge check runs
    for: each touches the other or neither does, and the merged circle is
    the same. *)
Theorem merge_is_symmetric (A B : Circle.t) :
  Circle.touches A B = Circle.touches B A /\
  Circle.newCircle A B = Circle.newCircle B A.
Proof.
  split.
  - unfold Circle.touches.
    rewrite (square_of_difference (Circle.x A) (Circle.x B)).
    rewrite (square_of_difference (Circle.y A) (Circle.y B)).
    now rewrite (add_comm (Circle.radius A)).
  - unfold Circle.newCircle.
    rewrite (add_comm (Circle.x A)), (add_comm (Circle.y A)), (add_comm (Circle.radius A)),
      (add_comm (Circle.speedX A)), (add_comm (Circle.speedY A)).
    reflexivity.
Qed.

(** ** The space key *)

Section Launches.

Variable RAND_MAX : Z.
Variable rand : nat -> Z.
Variable grow : nat -> nat.

Lemma processInput_fields (keys : Keys) (s : Program) :
  let s' := processInput RAND_MAX rand grow keys s in
  let launches := KEY_SPACE keys && negb (spacePressed s) in
  spacePressed s' = KEY_SPACE keys /\
  rand_calls s' = ((if launches then 4 else 0) + rand_calls s)%nat /\
  WindowShouldClose s' = KEY_ESCAPE keys || WindowShouldClose s /\
  bricks (game s') = bricks (game s) /\
  paddle (game s') =
    processInput_paddle (KEY_LEFT keys) (KEY_RIGHT keys) (paddle (game s)) /\
  world (game s') =
    world (game s) ++
    (if launches
     then [launch RAND_MAX (rand (rand_calls s)) (rand (1 + rand_calls s))
             (rand (2 + rand_calls s)) (rand (3 + rand_calls s))]
     else []).
Proof.
  cbv zeta. unfold processInput.
  destruct (KEY_SPACE keys), (spacePressed s) eqn:Esp, (KEY_ESCAPE keys); simpl;
    rewrite ?app_nil_r; repeat split; auto.
Qed.

Lemma launch_active (r1 r2 r3 r4 : Z) : Circle.active (launch RAND_MAX r1 r2 r3 r4) = true.
Proof. reflexivity. Qed.

Lemma turn_fields (keys : Keys) (s s' : Program) :
  turn RAND_MAX rand grow keys s = Running s' ->
  let launches := KEY_SPACE keys && negb (spacePressed s) in
  spacePressed s' = KEY_SPACE keys /\
  rand_calls s' = ((if launches then 4 else 0) + rand_calls s)%nat /\
  WindowShouldClose s' = KEY_ESCAPE keys || WindowShouldClose s /\
  length (bricks (game s')) = length (bricks (game s)) /\
  (length (world (game s')) <=
     (if launches then 1 else 0) + count_active (world (game s)))%nat /\
  Forall (fun c => Circle.active c = true) (world (game s')).
Proof.
  unfold turn. intros H. cbv zeta.
  destruct (processInput_fields keys s) as (Hsp & Hr & Hc & Hb & Hp & Hw).
  set (s1 := processInput RAND_MAX rand grow keys s) in *.
  destruct (movement_and_collision (game s1)) as [g|] eqn:E; [|discriminate].
  injection H as <-. simpl.
  destruct (for_world_keeps _ _ _ _ E) as (_ & Hlb & Hcount & _).
  repeat split; try assumption; try congruence.
  - rewrite remove_inactive_filter. fold (count_active (world g)).
    etransitivity; [exact Hcount|]. rewrite Hw, count_active_app.
    destruct (KEY_SPACE keys && negb (spacePressed s)); simpl; unfold count_active; simpl; lia.
  - rewrite remove_inactive_filter. apply Forall_forall. intros c Hc'.
    now apply list_elem_of_filter in Hc'.
Qed.





Lemma visit_alone (c : Circle.t) (g : Game) :
  world g = [c] -> exists g', visit 0 g = Ok g' /\ (length (world g') <= 1)%nat.
Proof.
  intros Hw. unfold visit. rewrite Hw. change ([c] !! 0%nat) with (Some c). cbv iota beta.
  destruct (Circle.active c) eqn:Ea; [|exists g; rewrite Hw; auto].
  destruct (for_bricks _ (bricks g)) as [c' bs'].
  change (<[0%nat := c']> [c]) with [c'].
  rewrite CheckCollision_circles_alone.
  rewrite Nat.ltb_irrefl. simpl. eexists. split; [reflexivity|]. simpl. lia.
Qed.

Lemma movement_alone (g : Game) :
  (length (world g) <= 1)%nat -> exists g', movement_and_collision g = Ok g'.
Proof.
  intros Hlen. unfold movement_and_collision.
  destruct (world g) as [|c [|c2 w]] eqn:Hw; simpl in Hlen; try lia.
  - exists g. reflexivity.
  - simpl. destruct (visit_alone c g Hw) as (g' & -> & _). eauto.
Qed.

(** X10.  With no more than one circle in play nothing goes wrong: when
    [world] holds at most one circle counting those that the space key
    launches in the frames played, the main loop stays defined through all
    of them, and [world] holds at most one circle at the end. *)
Theorem one_circle_is_safe (frames : list Keys) (s : Program) :
  (length (world (game s)) +
   rising_edges (spacePressed s) (map KEY_SPACE (played (WindowShouldClose s) frames))
   <= 1)%nat ->
  exists s', turns RAND_MAX rand grow frames s = Running s' /\
             (length (world (game s')) <= 1)%nat.
Proof.
  revert s. induction frames as [|keys frames IH]; intros s H; simpl in *.
  - exists s. split; [reflexivity|lia].
  - destruct (WindowShouldClose s) eqn:Ecl; simpl in H.
    + exists s. split; [reflexivity|lia].
    + destruct (processInput_fields keys s) as (Hsp & _ & _ & _ & _ & Hw).
      destruct (movement_alone (game (processInput RAND_MAX rand grow keys s))) as [g Hg].
      { rewrite Hw, length_app.
        destruct (KEY_SPACE keys && negb (spacePressed s)); simpl; lia. }
      destruct (turn RAND_MAX rand grow keys s) as [s1|] eqn:E1.
      * destruct (turn_fields keys s s1 E1) as (Hsp1 & _ & Hc1 & _ & Hw1 & _).
        pose proof (count_active_le_length (world (game s))) as Hle.
        apply IH. rewrite Hsp1, Hc1, Ecl, orb_false_r.
        destruct (KEY_SPACE keys && negb (spacePressed s)); lia.
      * unfold turn in E1. rewrite Hg in E1. discriminate.
Qed.

End Launches.


(** The space key pressed, released, and the escape key, from the start. *)
Lemma one_circle_is_safe_witness :
  let space := Build_Keys false false false true in
  let none := Build_Keys false false false false in
  let escape := Build_Keys true false false false in
  exists s', turns 32767 (fun n => Z.of_nat (100 + n)) (fun n => (2 * n)%nat)
                   [space; none; escape; space] program0 = Running s' /\
             (length (world (game s')) <= 1)%nat.
Proof.
  intros space none escape.
  apply (one_circle_is_safe 32767 (fun n => Z.of_nat (100 + n)) (fun n => (2 * n)%nat)
           [space; none; escape; space] program0).
  simpl. lia.
Defined.

(** ** The circle that is launched *)

Lemma launch_speeds_range :
  Forall (fun v => (- 0.02f <=? v)%f32 = true /\ (v <? 0.02f)%f32 = true /\
                   is_finite v = true) launch_speeds.
Proof.
  apply Forall_forall. intros v Hv.
  assert (H : forallb (fun v => (- 0.02f <=? v)%f32 && (v <? 0.02f)%f32 && is_finite v)
                launch_speeds = true) by (vm_compute; reflexivity).
  rewrite forallb_forall in H. apply list_elem_of_In in Hv. specialize (H v Hv).
  apply andb_prop in H as [H H3]. apply andb_prop in H as [H1 H2]. auto.
Qed.

(** X8.  The circle that the space key launches starts above the paddle
    at x = 0, y = -0.85 with radius 0.03, rises with speed 0.02 and is
    active; for a value of [rand] that is not negative, as the C library
    gives, its horizontal speed is a number from -0.02f up to, and not
    including, 0.02f, whatever RAND_MAX is. *)
Theorem launch_speed_range (RAND_MAX r1 r2 r3 r4 : Z) :
  0 <= r4 ->
  let c := launch RAND_MAX r1 r2 r3 r4 in
  (- 0.02f <=? Circle.speedX c)%f32 = true /\
  (Circle.speedX c <? 0.02f)%f32 = true /\
  is_finite (Circle.speedX c) = true /\
  Circle.speedY c = 0.02f%f32 /\
  Circle.x c = 0.0f%f32 /\
  Circle.active c = true.
Proof.
  intros Hr. cbv zeta.
  assert (Hin : Circle.speedX (launch RAND_MAX r1 r2 r3 r4) ∈ launch_speeds).
  { unfold launch_speeds. apply list_elem_of_fmap. exists (Z.rem r4 200). split; [reflexivity|].
    apply list_elem_of_fmap. exists (Z.to_nat (Z.rem r4 200)).
    pose proof (Z.rem_bound_pos r4 200 Hr ltac:(lia)).
    split; [lia|]. apply elem_of_seq. lia. }
  destruct (proj1 (Forall_forall _ _) launch_speeds_range _ Hin) as (H1 & H2 & H3).
  repeat split; assumption || reflexivity.
Qed.

Lemma launch_speed_range_witness :
  (- 0.02f <=? Circle.speedX (launch 32767 1 2 3 0))%f32 = true.
Proof. apply (launch_speed_range 32767 1 2 3 0). lia. Defined.

(** ** The middle of the paddle *)

Lemma sub_self (a : F32.float) : is_finite a = true -> (a - a)%f32 = S754_zero false.
Proof.
  destruct a as [[]|[]| |[] m e]; try discriminate; intros _; try reflexivity;
    unfold F32.sub, SFsub; cbn [cond_Zopp]; rewrite Z.sub_diag; reflexivity.
Qed.

(** X9.  A circle that meets the paddle with its centre exactly above the
    paddle's centre leaves with no horizontal speed, whatever speed it came
    with: for a finite position and a paddle of a finite width that is not
    zero, the new [speedX] is a zero. *)
Theorem centre_hit_goes_straight_up (c : Circle.t) (p : Paddle.t) :
  Circle.hits_paddle c p = true ->
  Circle.x c = Paddle.x p ->
  is_finite (Circle.x c) = true ->
  is_finite_nonzero (Paddle.width p / F32.of_int 2)%f32 = true ->
  is_zero (Circle.speedX (Circle.CheckCollision_Paddle c p)) = true.
Proof.
  intros Hhit Hx Hfin Hw. unfold Circle.CheckCollision_Paddle. rewrite Hhit.
  circle_fields. rewrite <- Hx, sub_self by assumption.
  destruct (Paddle.width p / F32.of_int 2)%f32 as [[]|[]| |[] m e]; try discriminate; reflexivity.
Qed.

Lemma centre_hit_goes_straight_up_witness :
  is_zero (Circle.speedX (Circle.CheckCollision_Paddle
                            (Circle.set_speedX on_paddle_mid 0.02f) paddle_mid)) = true.
Proof.
  apply centre_hit_goes_straight_up; vm_compute; reflexivity.
Defined.

(** ** The bricks through the turns of the main loop *)

Lemma collisions_app (cs1 cs2 : list Circle.t) (b : Brick.t) :
  collisions (cs1 ++ cs2) b = collisions cs2 (collisions cs1 b).
Proof. unfold collisions. apply foldl_app. Qed.

Lemma visit_bricks (i : nat) (g g' : Game) :
  visit i g = Ok g' -> exists cs, bricks g' = map (collisions cs) (bricks g).
Proof.
  unfold visit.
  destruct (world g !! i) as [circle|];
    [|intros [= <-]; exists []; symmetry; apply map_id].
  destruct (Circle.active circle);
    [|intros [= <-]; exists []; symmetry; apply map_id].
  set (c3 := Circle.CheckCollision_Paddle _ (paddle g)).
  pose proof (proj1 (for_bricks_walk c3 (bricks g))) as Hb.
  destruct (for_bricks c3 (bricks g)) as [circle' bricks']. simpl in Hb.
  destruct (_ && _); [discriminate|]. intros [= <-]. simpl.
  exists [c3]. exact Hb.
Qed.

Lemma for_world_bricks (n i : nat) (g g' : Game) :
  for_world i n g = Ok g' -> exists cs, bricks g' = map (collisions cs) (bricks g).
Proof.
  revert i g. induction n as [|n IH]; intros i g; simpl.
  - intros [= <-]. exists []. symmetry. apply map_id.
  - destruct (visit i g) as [g1|] eqn:E1; [|discriminate]. intros H.
    destruct (visit_bricks i g g1 E1) as [cs1 H1].
    destruct (IH (S i) g1 H) as [cs2 H2].
    exists (cs1 ++ cs2). rewrite H2, H1, map_map.
    apply map_ext. intros b. symmetry. apply collisions_app.
Qed.

Section Wear.

Variable RAND_MAX : Z.
Variable rand : nat -> Z.
Variable grow : nat -> nat.

Lemma turn_bricks (keys : Keys) (s s' : Program) :
  turn RAND_MAX rand grow keys s = Running s' ->
  exists cs, bricks (game s') = map (collisions cs) (bricks (game s)).
Proof.
  unfold turn. intros H.
  destruct (processInput_fields RAND_MAX rand grow keys s) as (_ & _ & _ & Hb & _).
  destruct (movement_and_collision _) as [g|] eqn:E; [|discriminate].
  injection H as <-. simpl. rewrite <- Hb. exact (for_world_bricks _ _ _ _ E).
Qed.

Lemma turns_bricks (frames : list Keys) (s s' : Program) :
  turns RAND_MAX rand grow frames s = Running s' ->
  exists cs, bricks (game s') = map (collisions cs) (bricks (game s)).
Proof.
  revert s. induction frames as [|keys frames IH]; intros s H; simpl in H.
  - injection H as <-. exists []. symmetry. apply map_id.
  - destruct (WindowShouldClose s).
    + injection H as <-. exists []. symmetry. apply map_id.
    + destruct (turn RAND_MAX rand grow keys s) as [s1|] eqn:E1; [|discriminate].
      destruct (turn_bricks keys s s1 E1) as [cs1 H1].
      destruct (IH s1 H) as [cs2 H2].
      exists (cs1 ++ cs2). rewrite H2, H1, map_map.
      apply map_ext. intros b. symmetry. apply collisions_app.
Qed.

(** X11.  Through the whole game the bricks only wear down.  Whatever keys
    are pressed in whatever frames, as long as the main loop stays defined:
    the bricks are changed by the checks of circles against them and by
    nothing else, all of them by the same circles in the same order; so
    every brick is still at its index, a brick that is [OFF] is as it was,
    and the hit points of no brick have grown. *)
Theorem bricks_only_wear_down (frames : list Keys) (s s' : Program) :
  turns RAND_MAX rand grow frames s = Running s' ->
  (exists cs, bricks (game s') = map (collisions cs) (bricks (game s))) /\
  (forall j b, bricks (game s) !! j = Some b ->
     exists b', bricks (game s') !! j = Some b' /\
       (Brick.onoff b = OFF -> b' = b) /\
       (INT_MIN < Brick.hitPoints b <= INT_MAX ->
        Brick.hitPoints b' <= Brick.hitPoints b /\
        (Brick.onoff b' = ON -> Brick.onoff b = ON))).
Proof.
  intros H. destruct (turns_bricks frames s s' H) as [cs Hcs].
  split; [eauto|]. intros j b Hj.
  exists (collisions cs b). rewrite Hcs, list_lookup_fmap, Hj. split; [reflexivity|].
  split; [apply collisions_off|]. intros Hrange.
  split; [apply collisions_hitPoints; assumption|].
  intros Hon. destruct (Brick.onoff b) eqn:Eb; [reflexivity|].
  rewrite collisions_off in Hon by assumption. congruence.
Qed.

End Wear.

(** The space key pressed and held, from the start of the program. *)
Lemma bricks_only_wear_down_witness :
  let space := Build_Keys false false false true in
  exists s', turns 32767 (fun n => Z.of_nat (100 + n)) (fun n => (2 * n)%nat)
                   [space; space; space] program0 = Running s' /\
             length (bricks (game s')) = 24%nat.
Proof.
  intros space.
  destruct (turns 32767 (fun n => Z.of_nat (100 + n)) (fun n => (2 * n)%nat)
                  [space; space; space] program0) as [s'|] eqn:E.
  - exists s'. split; [reflexivity|].
    destruct (proj1 (bricks_only_wear_down _ _ _ _ _ _ E)) as [cs ->].
    now rewrite length_map.
  - exfalso. vm_compute in E. discriminate.
Defined.
